(** * BankAccount (cpp/1-Encapsulation/bank_account.cpp)

    A shallow embedding of the [BankAccount] class and the properties of its
    validated operations.

    - [double] is IEEE 754 binary64, embedded as Rocq's primitive [float];
      the C++ operators [>], [>=], [<=], [+], [-], [*], [/] are the
      primitive operations on it, so NaN, the infinities, the signed zeros and
      rounding behave here as they do in the compiled program (each
      operation rounded to binary64, to nearest, ties to even).
    - [std::string] is [string]; [empty()] is comparison with the empty
      string.
    - objects live in a store indexed by references, so that
      [transfer(BankAccount &toAccount, ...)] sees the aliasing the C++
      reference allows ([a.transfer(a, x)]).
    - what a method sends to [cout] is returned as a list of stream items.

    [displayAccountInfo], the destructor and the narration of [main] only
    print; they are left out. The calls [main] makes are kept as
    [main_calls]. *)

From Stdlib Require Import ZArith Bool List String Lia.
From Stdlib Require Import Floats.
From stdpp Require Import base option gmap.

Open Scope string_scope.
Set Warnings "-inexact-float".

(** ** Doubles *)

Module Double.

Abbreviation double := float.

(** C++ [x > y], [x >= y], [x <= y] on doubles. Each is [false] as soon as
    one operand is NaN. *)
Definition gt (x y : double) : bool := PrimFloat.ltb y x.
Definition ge (x y : double) : bool := PrimFloat.leb y x.
Definition le (x y : double) : bool := PrimFloat.leb x y.

(** [std::isnan]: NaN is the only double that differs from itself. *)
Definition isnan (x : double) : bool := negb (PrimFloat.eqb x x).

(** [std::isfinite]: neither NaN nor an infinity. *)
Definition isfinite (x : double) : bool :=
  match Prim2SF x with
  | S754_zero _ | S754_finite _ _ _ => true
  | S754_infinity _ | S754_nan => false
  end.

End Double.
Import Double.

(** ** The console *)

(** One item inserted into [cout] with [<<]. Doubles are kept as values: how
    they print depends on the [fixed] and [setprecision] items before them. *)
Inductive out_item : Type :=
| OStr (s : string)
| ODouble (x : double)
| OFixed
| OSetPrecision (n : nat)
| OEndl.

Definition console := list out_item.

(** ** The class *)

Record BankAccount : Type := mkBankAccount {
  accountNumber : string;
  accountHolder : string;
  balance : double;
  accountType : string;
  interestRate : double
}.

Definition set_accountHolder (a : BankAccount) (h : string) : BankAccount :=
  mkBankAccount (accountNumber a) h (balance a) (accountType a) (interestRate a).

Definition set_balance (a : BankAccount) (b : double) : BankAccount :=
  mkBankAccount (accountNumber a) (accountHolder a) b (accountType a) (interestRate a).

Definition set_interestRate (a : BankAccount) (r : double) : BankAccount :=
  mkBankAccount (accountNumber a) (accountHolder a) (balance a) (accountType a) r.

(** [bool isValidAmount(double amount) const { return amount > 0; }] *)
Definition isValidAmount (amount : double) : bool := gt amount 0.

(** The constructor: five plain assignments and one line on the console. *)
Definition BankAccount_new (accNum holder : string) (initialBalance : double)
    (type : string) (rate : double) : BankAccount * console :=
  (mkBankAccount accNum holder initialBalance type rate,
   [OStr "✓ Account created successfully!"; OEndl]).

(** The default arguments [type = "Savings"] and [rate = 0.0]. *)
Definition BankAccount_new4 (accNum holder : string) (initialBalance : double)
    (type : string) : BankAccount * console :=
  BankAccount_new accNum holder initialBalance type 0.

Definition BankAccount_new3 (accNum holder : string) (initialBalance : double)
    : BankAccount * console :=
  BankAccount_new accNum holder initialBalance "Savings" 0.

(** Getters. *)
Definition getAccountNumber (a : BankAccount) : string := accountNumber a.
Definition getAccountHolder (a : BankAccount) : string := accountHolder a.
Definition getBalance (a : BankAccount) : double := balance a.
Definition getAccountType (a : BankAccount) : string := accountType a.
Definition getInterestRate (a : BankAccount) : double := interestRate a.

(** A method on [*this]: the returned value, the object afterwards and what
    was printed. *)
Definition method (R : Type) : Type := BankAccount -> R * BankAccount * console.

Definition setInterestRate (rate : double) : method bool := fun a =>
  if ge rate 0 && le rate 50 then
    (true, set_interestRate a rate,
     [OStr "✓ Interest rate updated to "; OFixed; OSetPrecision 2;
      ODouble rate; OStr "%"; OEndl])
  else
    (false, a,
     [OStr "✗ Invalid interest rate! Rate must be between 0 and 50%"; OEndl]).

Definition string_empty (s : string) : bool :=
  match s with EmptyString => true | String _ _ => false end.

Definition setAccountHolder (newHolder : string) : method bool := fun a =>
  if negb (string_empty newHolder) then
    let a' := set_accountHolder a newHolder in
    (true, a',
     [OStr "✓ Account holder updated to: "; OStr (accountHolder a'); OEndl])
  else
    (false, a,
     [OStr "✗ Invalid name! Account holder name cannot be empty"; OEndl]).

Definition deposit (amount : double) : method bool := fun a =>
  if negb (isValidAmount amount) then
    (false, a,
     [OStr "✗ Invalid amount! Deposit amount must be positive"; OEndl])
  else
    let a' := set_balance a (balance a + amount)%float in
    (true, a',
     [OStr "✓ Deposit Successful!"; OEndl;
      OStr "  Amount Deposited: $"; OFixed; OSetPrecision 2; ODouble amount; OEndl;
      OStr "  New Balance: $"; ODouble (balance a'); OEndl]).

Definition withdraw (amount : double) : method bool := fun a =>
  if negb (isValidAmount amount) then
    (false, a,
     [OStr "✗ Invalid amount! Withdrawal amount must be positive"; OEndl])
  else if gt amount (balance a) then
    (false, a,
     [OStr "✗ Insufficient funds!"; OEndl;
      OStr "  Requested: $"; OFixed; OSetPrecision 2; ODouble amount; OEndl;
      OStr "  Available: $"; ODouble (balance a); OEndl])
  else
    let a' := set_balance a (balance a - amount)%float in
    (true, a',
     [OStr "✓ Withdrawal Successful!"; OEndl;
      OStr "  Amount Withdrawn: $"; OFixed; OSetPrecision 2; ODouble amount; OEndl;
      OStr "  New Balance: $"; ODouble (balance a'); OEndl]).

Definition applyInterest : method double := fun a =>
  let interestAmount := ((balance a * interestRate a) / 100)%float in
  let a' := set_balance a (balance a + interestAmount)%float in
  (interestAmount, a',
   [OStr "✓ Interest Applied!"; OEndl;
    OStr "  Interest Rate: "; OFixed; OSetPrecision 2;
    ODouble (interestRate a'); OStr "%"; OEndl;
    OStr "  Interest Added: $"; ODouble interestAmount; OEndl;
    OStr "  New Balance: $"; ODouble (balance a'); OEndl]).

(** ** Objects and references *)

Definition ref := nat.
Abbreviation store := (gmap ref BankAccount).

(** Calling a method through a reference: the object is read from the store
    and written back. A reference to no object has no behaviour ([None]). *)
Definition call {R : Type} (m : method R) (this : ref) (σ : store)
    : option (R * store * console) :=
  match σ !! this with
  | Some a => let '(r, a', out) := m a in Some (r, <[this := a']> σ, out)
  | None => None
  end.

(** [bool transfer(BankAccount &toAccount, double amount)]. The two
    assignments go through the store one after the other, so that
    [toAccount.balance += amount] reads what [this->balance -= amount] wrote
    when both references name the same object. *)
Definition transfer (this toAccount : ref) (amount : double) (σ : store)
    : option (bool * store * console) :=
  match σ !! this, σ !! toAccount with
  | Some a, Some _ =>
    if negb (isValidAmount amount) then
      Some (false, σ,
            [OStr "✗ Invalid transfer amount! Must be positive"; OEndl])
    else if gt amount (balance a) then
      Some (false, σ,
            [OStr "✗ Insufficient funds for transfer!"; OEndl;
             OStr "  Requested: $"; OFixed; OSetPrecision 2; ODouble amount; OEndl;
             OStr "  Available: $"; ODouble (balance a); OEndl])
    else
      let a1 := set_balance a (balance a - amount)%float in
      let σ1 := <[this := a1]> σ in
      match σ1 !! toAccount with
      | Some b =>
        let b1 := set_balance b (balance b + amount)%float in
        let σ2 := <[toAccount := b1]> σ1 in
        match σ2 !! this with
        | Some a2 =>
          Some (true, σ2,
                [OStr "✓ Transfer Successful!"; OEndl;
                 OStr "  From: "; OStr (accountHolder a2); OStr " (";
                 OStr (accountNumber a2); OStr ")"; OEndl;
                 OStr "  To: "; OStr (accountHolder b1); OStr " (";
                 OStr (accountNumber b1); OStr ")"; OEndl;
                 OStr "  Amount: $"; OFixed; OSetPrecision 2; ODouble amount; OEndl])
        | None => None
        end
      | None => None
      end
  | _, _ => None
  end.

(** ** Failure kinds *)

(** The methods report failure by returning [false] after printing a line
    that starts with the cross mark. The four kinds of failure are read off
    that line. *)
Inductive Signal : Type :=
| InvalidAmount
| InsufficientFunds
| InvalidInterestRate
| InvalidHolderName.

Definition signal_of_line (s : string) : option Signal :=
  if String.eqb s "✗ Invalid amount! Deposit amount must be positive" then Some InvalidAmount
  else if String.eqb s "✗ Invalid amount! Withdrawal amount must be positive" then Some InvalidAmount
  else if String.eqb s "✗ Invalid transfer amount! Must be positive" then Some InvalidAmount
  else if String.eqb s "✗ Insufficient funds!" then Some InsufficientFunds
  else if String.eqb s "✗ Insufficient funds for transfer!" then Some InsufficientFunds
  else if String.eqb s "✗ Invalid interest rate! Rate must be between 0 and 50%" then Some InvalidInterestRate
  else if String.eqb s "✗ Invalid name! Account holder name cannot be empty" then Some InvalidHolderName
  else None.

Definition signalled (out : console) : option Signal :=
  match out with
  | OStr s :: _ => signal_of_line s
  | _ => None
  end.

(** Projections of a method's result. *)
Definition returned {R S : Type} (r : R * S * console) : R := fst (fst r).
Definition after {R S : Type} (r : R * S * console) : S := snd (fst r).
Definition printed {R S : Type} (r : R * S * console) : console := snd r.

(** ** Sequences of calls *)

(** The six operations that change an account, as a client may call them. *)
Inductive invocation : Type :=
| Deposit (amount : double)
| Withdraw (amount : double)
| Transfer (toAccount : ref) (amount : double)
| SetInterestRate (rate : double)
| SetAccountHolder (newHolder : string)
| ApplyInterest.

Inductive value : Type :=
| VBool (b : bool)
| VDouble (x : double).

Definition with_value {R S : Type} (f : R -> value) (r : option (R * S * console))
    : option (value * S * console) :=
  match r with
  | Some (v, s, out) => Some (f v, s, out)
  | None => None
  end.

Definition invoke (this : ref) (i : invocation) (σ : store)
    : option (value * store * console) :=
  match i with
  | Deposit amount => with_value VBool (call (deposit amount) this σ)
  | Withdraw amount => with_value VBool (call (withdraw amount) this σ)
  | Transfer toAccount amount => with_value VBool (transfer this toAccount amount σ)
  | SetInterestRate rate => with_value VBool (call (setInterestRate rate) this σ)
  | SetAccountHolder newHolder => with_value VBool (call (setAccountHolder newHolder) this σ)
  | ApplyInterest => with_value VDouble (call applyInterest this σ)
  end.

(** A client program: calls in sequence, each on the store the previous one
    left. *)
Fixpoint run (p : list (ref * invocation)) (σ : store) : option store :=
  match p with
  | [] => Some σ
  | (this, i) :: p' =>
    match invoke this i σ with
    | Some (_, σ', _) => run p' σ'
    | None => None
    end
  end.

(** The references a call uses. *)
Definition refs_of (c : ref * invocation) : list ref :=
  match c with
  | (this, Transfer toAccount _) => [this; toAccount]
  | (this, _) => [this]
  end.

(** ** Construction of the objects of a program *)

(** The five arguments of one constructor call. *)
Record ctor_args : Type := mkArgs {
  arg_accNum : string;
  arg_holder : string;
  arg_initialBalance : double;
  arg_type : string;
  arg_rate : double
}.

Definition construct (x : ctor_args) : BankAccount :=
  fst (BankAccount_new (arg_accNum x) (arg_holder x) (arg_initialBalance x)
         (arg_type x) (arg_rate x)).

(** The store after a series of constructor calls: the objects are numbered
    from 1 in the order of their construction. *)
Definition constructed (l : list ctor_args) : store :=
  map_seq 1 (construct <$> l).

(** The accounts of [main]. *)
Definition account1_args : ctor_args := mkArgs "ACC001" "John Doe" 5000 "Savings" 3.5.
Definition account2_args : ctor_args := mkArgs "ACC002" "Jane Smith" 10000 "Checking" 1.
Definition account1 : BankAccount := construct account1_args.
Definition account2 : BankAccount := construct account2_args.
Definition main_store : store := constructed [account1_args; account2_args].

(** The calls of [main], in order. *)
Definition main_calls : list (ref * invocation) :=
  [(1, SetInterestRate 4.5); (1, SetInterestRate 75);
   (1, SetAccountHolder "John Smith");
   (1, Deposit 2000); (1, Deposit (-1000));
   (1, Withdraw 3000); (1, Withdraw 100000);
   (1, ApplyInterest);
   (1, Transfer 2 500); (1, Transfer 2 50000)].

(** ** Relations between states *)

(** The store a successful transfer leaves. When both references name one
    object, the deposit half reads the balance the withdrawal half wrote. *)
Definition transferred (this toAccount : ref) (amount : double)
    (a b : BankAccount) (σ : store) : store :=
  let a1 := set_balance a (balance a - amount)%float in
  let b0 := if decide (this = toAccount) then a1 else b in
  <[toAccount := set_balance b0 (balance b0 + amount)%float]> (<[this := a1]> σ).

(** [evolves a a'] : [a'] is [a] after some assignments of the kinds the
    methods perform: any new balance, a rate that passed the range test, a
    holder name that passed the emptiness test. *)
Inductive evolves (a : BankAccount) : BankAccount -> Prop :=
| evolves_refl : evolves a a
| evolves_balance (a' : BankAccount) (x : double) :
    evolves a a' -> evolves a (set_balance a' x)
| evolves_rate (a' : BankAccount) (r : double) :
    evolves a a' -> ge r 0 && le r 50 = true -> evolves a (set_interestRate a' r)
| evolves_holder (a' : BankAccount) (h : string) :
    evolves a a' -> string_empty h = false -> evolves a (set_accountHolder a' h).

(** Pointwise on two stores: the same references, each object evolved. *)
Definition store_evolves (σ σ' : store) : Prop :=
  forall r : ref, option_Forall2 evolves (σ !! r) (σ' !! r).

(** The calls of a program all go through references to objects of the
    store. *)
Definition well_referenced (p : list (ref * invocation)) (σ : store) : Prop :=
  Forall (fun c => Forall (fun r => is_Some (σ !! r)) (refs_of c)) p.

(** [interestRate] within [0, 50], by the comparisons of [setInterestRate]. *)
Definition rate_in_range (r : double) : Prop :=
  ge r 0 = true /\ le r 50 = true.

(** ** Signs of doubles *)

(** [has_sign s x] : [x] is a zero, an infinity or a finite number of sign
    [s] ([true] is minus); NaN has no sign. *)
Definition has_sign (s : bool) (x : spec_float) : Prop :=
  match x with
  | S754_zero s' | S754_infinity s' | S754_finite s' _ _ => s' = s
  | S754_nan => False
  end.

(** Doubles that compare [>= 0]: a zero of either sign, a positive finite
    number, or plus infinity. *)
Definition nonneg (x : spec_float) : Prop :=
  match x with
  | S754_zero _ | S754_finite false _ _ | S754_infinity false => True
  | _ => False
  end.

(** ** Order and magnitude of doubles *)

(** Doubles that compare [> 0]: positive finite numbers and plus infinity. *)
Definition positive_float (x : spec_float) : Prop :=
  match x with
  | S754_finite false _ _ | S754_infinity false => True
  | _ => False
  end.

(** Doubles for which [x < 0] is false: NaN and the doubles that are [>= 0]. *)
Definition not_negative (x : spec_float) : Prop :=
  match x with
  | S754_nan | S754_zero _ | S754_finite false _ _ | S754_infinity false => True
  | _ => False
  end.

(** [mag_le x mb eb] : the magnitude of [x] is not above that of the double
    with mantissa [mb] and exponent [eb]. *)
Definition mag_le (x : spec_float) (mb : positive) (eb : Z) : Prop :=
  match x with
  | S754_zero _ => True
  | S754_finite _ m e => (e < eb)%Z \/ (e = eb /\ (Zpos m <= Zpos mb)%Z)
  | _ => False
  end.

(** ** transfer from its two halves *)

(** What the comment in [transfer] announces ("Withdraw from this account,
    Deposit to other"), written with the two methods themselves: [withdraw]
    on the source and, when it returns [true], [deposit] on the destination.
    The console is left aside. *)
Definition withdraw_then_deposit (this toAccount : ref) (amount : double)
    (σ : store) : option (bool * store) :=
  match σ !! toAccount with
  | None => None
  | Some _ =>
    match call (withdraw amount) this σ with
    | Some (true, σ1, _) =>
      match call (deposit amount) toAccount σ1 with
      | Some (r, σ2, _) => Some (r, σ2)
      | None => None
      end
    | Some (false, σ1, _) => Some (false, σ1)
    | None => None
    end
  end.

(** ** The output stream and displayAccountInfo *)

From Stdlib Require Import Ascii.

(** [displayAccountInfo] also inserts [left] and [setw(25)] into [cout]. *)
Inductive stream_item : Type :=
| SItem (o : out_item)
| SLeft
| SSetw (n : nat).

(** The part of the format state of [cout] that the insertions of the
    program read or write: whether [floatfield] is [fixed], the precision,
    whether [adjustfield] is [left], the field width and the fill character.
    The program sets the first four ([fixed], [setprecision], [left],
    [setw]) and never the fill character, which is whatever the stream had
    ([cout.fill()], a space unless changed). All stay until changed but the
    width, which applies to the next string or number and is reset by it. *)
Record fmt : Type := mkFmt {
  fmt_fixed : bool;
  fmt_precision : nat;
  fmt_left : bool;
  fmt_width : nat;
  fmt_fill : ascii
}.

(** What reaches the terminal: text, padded as the state asked; a double
    with the format it is printed in; a newline. *)
Inductive piece : Type :=
| PText (s : string)
| PDouble (x : double) (fixed : bool) (precision width : nat) (left : bool)
    (fill : ascii)
| PNewline.

(** [std::string(n, c)]. *)
Fixpoint string_n (n : nat) (c : ascii) : string :=
  match n with
  | O => EmptyString
  | S n' => String c (string_n n' c)
  end.

(** Padding with the fill character to the field width, after the text under
    [left] and before it otherwise; a text as long as the width or longer is
    printed as it is. *)
Definition pad (left : bool) (width : nat) (fill : ascii) (s : string) : string :=
  let filling := string_n (width - String.length s) fill in
  if left then s ++ filling else filling ++ s.

Fixpoint render (st : fmt) (l : list stream_item) : list piece :=
  match l with
  | [] => []
  | SItem (OStr s) :: l' =>
    PText (pad (fmt_left st) (fmt_width st) (fmt_fill st) s)
      :: render (mkFmt (fmt_fixed st) (fmt_precision st) (fmt_left st) 0
                   (fmt_fill st)) l'
  | SItem (ODouble x) :: l' =>
    PDouble x (fmt_fixed st) (fmt_precision st) (fmt_width st) (fmt_left st)
        (fmt_fill st)
      :: render (mkFmt (fmt_fixed st) (fmt_precision st) (fmt_left st) 0
                   (fmt_fill st)) l'
  | SItem OFixed :: l' =>
    render (mkFmt true (fmt_precision st) (fmt_left st) (fmt_width st)
              (fmt_fill st)) l'
  | SItem (OSetPrecision n) :: l' =>
    render (mkFmt (fmt_fixed st) n (fmt_left st) (fmt_width st) (fmt_fill st)) l'
  | SItem OEndl :: l' => PNewline :: render st l'
  | SLeft :: l' =>
    render (mkFmt (fmt_fixed st) (fmt_precision st) true (fmt_width st)
              (fmt_fill st)) l'
  | SSetw n :: l' =>
    render (mkFmt (fmt_fixed st) (fmt_precision st) (fmt_left st) n
              (fmt_fill st)) l'
  end.

(** The line feed of ["\n"]. *)
Definition nl : string := String (Ascii.ascii_of_nat 10) EmptyString.

(** [void displayAccountInfo() const]: the object is only read. *)
Definition displayAccountInfo (a : BankAccount) : list stream_item :=
  [SItem (OStr nl); SItem (OStr (string_n 60 "="%char)); SItem OEndl;
   SItem (OStr "ACCOUNT INFORMATION"); SItem OEndl;
   SItem (OStr (string_n 60 "="%char)); SItem OEndl;
   SLeft;
   SSetw 25; SItem (OStr "Account Number:"); SItem (OStr (accountNumber a)); SItem OEndl;
   SSetw 25; SItem (OStr "Account Holder:"); SItem (OStr (accountHolder a)); SItem OEndl;
   SSetw 25; SItem (OStr "Account Type:"); SItem (OStr (accountType a)); SItem OEndl;
   SSetw 25; SItem (OStr "Balance:"); SItem (OStr "$"); SItem OFixed;
   SItem (OSetPrecision 2); SItem (ODouble (balance a)); SItem OEndl;
   SSetw 25; SItem (OStr "Interest Rate:"); SItem (ODouble (interestRate a));
   SItem (OStr "%"); SItem OEndl;
   SItem (OStr (string_n 60 "="%char)); SItem (OStr nl); SItem OEndl].

(** A double printed in fixed notation with two decimals. *)
Definition fixed2 (p : piece) : Prop :=
  match p with
  | PDouble _ fixed precision _ _ _ => fixed = true /\ precision = 2
  | _ => True
  end.

(** An account in credit: neither its balance nor its rate is below zero. *)
Definition in_credit (a : BankAccount) : Prop :=
  (balance a <? 0)%float = false /\ (interestRate a <? 0)%float = false.

(** * Properties *)

(** ** Comparison of doubles *)

Module DoubleFacts.

Lemma SFcompare_antisym (x y : spec_float) :
  SFcompare y x = option_map CompOpp (SFcompare x y).
Proof.
  destruct x as [sx | sx | | sx mx ex], y as [sy | sy | | sy my ey];
    try (destruct sx); try (destruct sy); simpl; try reflexivity;
    rewrite (Z.compare_antisym ex ey);
    destruct (ex ?= ey)%Z; simpl; try reflexivity;
    change Eq with (CompOpp Eq) at 1;
    rewrite <- (Pos.compare_cont_antisym mx my Eq);
    rewrite ?CompOpp_involutive; reflexivity.
Qed.

Lemma SFcompare_refl (x : spec_float) :
  x <> S754_nan -> SFcompare x x = Some Eq.
Proof.
  destruct x as [s | s | | s m e]; try (destruct s); simpl;
    try reflexivity; try congruence; intros _;
    rewrite Z.compare_refl; [ | simpl ];
    change (Pos.compare_cont Eq m m) with (m ?= m)%positive;
    rewrite Pos.compare_refl; reflexivity.
Qed.

Lemma isnan_spec (x : double) : isnan x = true <-> Prim2SF x = S754_nan.
Proof.
  unfold isnan. rewrite FloatAxioms.eqb_spec. unfold SFeqb. split.
  - intros H. destruct (Prim2SF x) eqn:E; try reflexivity;
      rewrite SFcompare_refl in H by congruence; discriminate.
  - intros ->. reflexivity.
Qed.

Lemma isnan_false (x : double) : isnan x = false <-> Prim2SF x <> S754_nan.
Proof.
  rewrite <- isnan_spec. destruct (isnan x); split; congruence.
Qed.

Lemma SFcompare_None (x y : spec_float) :
  SFcompare x y = None <-> x = S754_nan \/ y = S754_nan.
Proof.
  destruct x as [sx | sx | | sx mx ex], y as [sy | sy | | sy my ey];
    simpl; split; intros H; try discriminate; auto;
    destruct H; discriminate.
Qed.

(** [x > y] is [y < x], whatever the operands. *)
Lemma gt_ltb (x y : double) : gt x y = (y <? x)%float.
Proof. reflexivity. Qed.

(** [x <= y] excludes [x > y]. *)
Lemma le_not_gt (x y : double) : le x y = true -> gt x y = false.
Proof.
  unfold le, gt. rewrite FloatAxioms.leb_spec, FloatAxioms.ltb_spec. unfold SFleb, SFltb.
  rewrite (SFcompare_antisym (Prim2SF x) (Prim2SF y)).
  destruct (SFcompare (Prim2SF x) (Prim2SF y)) as [[]|]; simpl; congruence.
Qed.

(** A comparison that holds has no NaN operand. *)
Lemma gt_true_not_nan (x y : double) :
  gt x y = true -> isnan x = false /\ isnan y = false.
Proof.
  unfold gt. rewrite FloatAxioms.ltb_spec. unfold SFltb. intros H.
  rewrite !isnan_false.
  destruct (SFcompare (Prim2SF y) (Prim2SF x)) eqn:E; [ | discriminate ].
  split; intros N; rewrite N in E;
    destruct (Prim2SF y), (Prim2SF x); simpl in E; discriminate.
Qed.

Lemma le_true_not_nan (x y : double) :
  le x y = true -> isnan x = false /\ isnan y = false.
Proof.
  unfold le. rewrite FloatAxioms.leb_spec. unfold SFleb. intros H.
  rewrite !isnan_false.
  destruct (SFcompare (Prim2SF x) (Prim2SF y)) eqn:E; [ | discriminate ].
  split; intros N; rewrite N in E;
    destruct (Prim2SF y), (Prim2SF x); simpl in E; discriminate.
Qed.

(** Away from NaN the order is total: not [x > y] is [x <= y]. *)
Lemma not_gt_le (x y : double) :
  isnan x = false -> isnan y = false -> gt x y = false -> le x y = true.
Proof.
  rewrite !isnan_false. unfold le, gt. rewrite FloatAxioms.leb_spec, FloatAxioms.ltb_spec.
  unfold SFleb, SFltb. intros Hx Hy.
  rewrite (SFcompare_antisym (Prim2SF x) (Prim2SF y)).
  destruct (SFcompare (Prim2SF x) (Prim2SF y)) as [[]|] eqn:E; simpl;
    try congruence.
  apply SFcompare_None in E. tauto.
Qed.

Lemma not_gt_iff_le (x y : double) :
  isnan x = false -> isnan y = false -> (gt x y = false <-> le x y = true).
Proof.
  intros Hx Hy. split; [ apply not_gt_le; assumption | apply le_not_gt ].
Qed.

End DoubleFacts.

(** ** Rounding of doubles *)

(** The primitive operations are specified by [SpecFloat]: a result is
    computed exactly on integer mantissas, shifted right to the exponent the
    format allows ([shr_fexp]), rounded to nearest even on the bits shifted
    out, and shifted once more if the rounding carried. What is needed of
    that here: rounding keeps the sign, and the rounded sum of two positive
    doubles is not below either. Exponents are counted from the smallest one,
    -1074, so that values are integers. *)

Module RoundingFacts.

Local Open Scope Z_scope.

(** Binary64: 53 bits of mantissa, exponents from -1074. *)
Lemma fexp_eq (e : Z) : fexp prec emax e = Z.max (e - 53) (-1074).
Proof. reflexivity. Qed.

(** A mantissa of [d] binary digits lies in [2^(d-1), 2^d). *)
Lemma digits2_pos_bounds (m : positive) :
  2 ^ (Zpos (digits2_pos m) - 1) <= Zpos m < 2 ^ Zpos (digits2_pos m).
Proof.
  induction m as [m IH | m IH | ]; simpl digits2_pos.
  - rewrite Pos2Z.inj_succ.
    replace (Z.succ (Zpos (digits2_pos m)) - 1)
      with (Z.succ (Zpos (digits2_pos m) - 1)) by lia.
    rewrite !Z.pow_succ_r by lia. lia.
  - rewrite Pos2Z.inj_succ.
    replace (Z.succ (Zpos (digits2_pos m)) - 1)
      with (Z.succ (Zpos (digits2_pos m) - 1)) by lia.
    rewrite !Z.pow_succ_r by lia. lia.
  - simpl. lia.
Qed.

(** One step of the right shift halves the mantissa. *)
Lemma shr_1_m (mrs : shr_record) :
  0 <= shr_m mrs -> shr_m (shr_1 mrs) = shr_m mrs / 2.
Proof.
  destruct mrs as [m r s]. simpl. intros H.
  destruct m as [ | [p | p | ] | p ]; simpl; try lia; try reflexivity.
  - apply Z.div_unique with (r := 1); lia.
  - apply Z.div_unique with (r := 0); lia.
Qed.

Lemma iter_pos_shr_1 (n : positive) (mrs : shr_record) :
  0 <= shr_m mrs ->
  shr_m (SpecFloat.iter_pos shr_1 n mrs) = shr_m mrs / 2 ^ Zpos n.
Proof.
  revert mrs. induction n as [n IH | n IH | ]; intros mrs H; simpl SpecFloat.iter_pos.
  - assert (H1 : 0 <= shr_m (shr_1 mrs))
      by (rewrite shr_1_m by exact H; apply Z.div_pos; lia).
    assert (H2 : 0 <= shr_m (SpecFloat.iter_pos shr_1 n (shr_1 mrs)))
      by (rewrite IH by exact H1; apply Z.div_pos; lia).
    rewrite IH by exact H2. rewrite IH by exact H1. rewrite shr_1_m by exact H.
    rewrite !Z.div_div by lia. f_equal.
    replace (Zpos n~1) with (1 + (Zpos n + Zpos n)) by lia.
    rewrite (Z.pow_add_r 2 1 (Zpos n + Zpos n)),
      (Z.pow_add_r 2 (Zpos n) (Zpos n)) by lia.
    lia.
  - assert (H2 : 0 <= shr_m (SpecFloat.iter_pos shr_1 n mrs))
      by (rewrite IH by exact H; apply Z.div_pos; lia).
    rewrite IH by exact H2. rewrite IH by exact H.
    rewrite !Z.div_div by lia. f_equal.
    replace (Zpos n~0) with (Zpos n + Zpos n) by lia.
    rewrite (Z.pow_add_r 2 (Zpos n) (Zpos n)) by lia. lia.
  - rewrite shr_1_m by exact H. reflexivity.
Qed.

Lemma shr_record_of_loc_m (m : Z) (l : location) :
  shr_m (shr_record_of_loc m l) = m.
Proof. destruct l as [ | [ | | ]]; reflexivity. Qed.

(** [shr] shifts the mantissa right by [n] when [n] is positive. *)
Lemma shr_spec (mrs : shr_record) (e n : Z) :
  0 <= shr_m mrs ->
  shr_m (fst (shr mrs e n)) = shr_m mrs / 2 ^ Z.max n 0 /\
  snd (shr mrs e n) = e + Z.max n 0.
Proof.
  intros H. destruct n as [ | n | n ]; simpl.
  - rewrite Z.div_1_r. lia.
  - rewrite iter_pos_shr_1 by exact H. split; [ reflexivity | lia ].
  - rewrite Z.div_1_r. lia.
Qed.

(** Rounding keeps the mantissa or adds one. *)
Lemma round_nearest_even_bounds (m : Z) (l : location) :
  m <= round_nearest_even m l <= m + 1.
Proof.
  destruct l as [ | [ | | ]]; simpl; try lia. destruct (Z.even m); lia.
Qed.

Lemma Zdigits2_nonneg (m : Z) : 0 <= Zdigits2 m.
Proof. destruct m; simpl; lia. Qed.

(** The two shifts and the rounding of [binary_round_aux], on a mantissa that
    is not negative. *)
Lemma binary_round_aux_spec (s : bool) (m e : Z) (l : location) :
  0 <= m ->
  exists m2 : Z,
    let n1 := fexp prec emax (Zdigits2 m + e) - e in
    let m1 := m / 2 ^ Z.max n1 0 in
    let e1 := e + Z.max n1 0 in
    let n2 := fexp prec emax (Zdigits2 m2 + e1) - e1 in
    let m3 := m2 / 2 ^ Z.max n2 0 in
    let e3 := e1 + Z.max n2 0 in
    m1 <= m2 <= m1 + 1 /\
    binary_round_aux prec emax s m e l =
      match m3 with
      | Z0 => S754_zero s
      | Zpos p => if e3 <=? emax - prec then S754_finite s p e3 else S754_infinity s
      | Zneg _ => S754_nan
      end.
Proof.
  intros Hm. unfold binary_round_aux, shr_fexp.
  pose proof (shr_spec (shr_record_of_loc m l) e
                (fexp prec emax (Zdigits2 m + e) - e)) as H1.
  rewrite shr_record_of_loc_m in H1. specialize (H1 Hm).
  destruct (shr (shr_record_of_loc m l) e (fexp prec emax (Zdigits2 m + e) - e))
    as [mrs1 e1].
  simpl in H1. destruct H1 as [Hm1 He1].
  pose proof (round_nearest_even_bounds (shr_m mrs1) (loc_of_shr_record mrs1)) as Hr.
  set (m2 := round_nearest_even (shr_m mrs1) (loc_of_shr_record mrs1)) in *.
  assert (Hm1' : 0 <= shr_m mrs1) by (rewrite Hm1; apply Z.div_pos; lia).
  pose proof (shr_spec (shr_record_of_loc m2 loc_Exact) e1
                (fexp prec emax (Zdigits2 m2 + e1) - e1)) as H2.
  rewrite shr_record_of_loc_m in H2.
  assert (Hm2 : 0 <= m2) by lia. specialize (H2 Hm2).
  destruct (shr (shr_record_of_loc m2 loc_Exact) e1
              (fexp prec emax (Zdigits2 m2 + e1) - e1)) as [mrs3 e3].
  simpl in H2. destruct H2 as [Hm3 He3].
  exists m2. cbv zeta. rewrite <- He1, <- Hm1. split; [ exact Hr | ].
  rewrite <- Hm3, <- He3. reflexivity.
Qed.

(** The result of rounding a mantissa that is not negative carries the sign
    it was given, and is not NaN. *)
Lemma binary_round_aux_sign (s : bool) (m e : Z) (l : location) :
  0 <= m -> has_sign s (binary_round_aux prec emax s m e l).
Proof.
  intros Hm. destruct (binary_round_aux_spec s m e l Hm) as (m2 & Hr & ->).
  cbv zeta in *.
  set (e1 := e + Z.max (fexp prec emax (Zdigits2 m + e) - e) 0) in *.
  assert (H3 : 0 <= m2 / 2 ^ Z.max (fexp prec emax (Zdigits2 m2 + e1) - e1) 0).
  { apply Z.div_pos; [ | lia ].
    assert (0 <= m / 2 ^ Z.max (fexp prec emax (Zdigits2 m + e) - e) 0)
      by (apply Z.div_pos; lia).
    lia. }
  destruct (m2 / _) as [ | p | p ]; simpl; try reflexivity; try lia.
  destruct (_ <=? _); reflexivity.
Qed.

Lemma has_sign_nonneg (x : spec_float) : has_sign false x -> nonneg x.
Proof. destruct x as [s | s | | s m e]; simpl; intros H; subst; auto. Qed.

(** [x >= 0] on doubles, read on the specification. *)
Lemma ge_zero_spec (x : double) : ge x 0 = true <-> nonneg (Prim2SF x).
Proof.
  unfold ge. rewrite FloatAxioms.leb_spec. unfold SFleb.
  change (Prim2SF 0) with (S754_zero false).
  destruct (Prim2SF x) as [s | [ | ] | | [ | ] m e]; simpl; split; intros H;
    try reflexivity; try discriminate; try contradiction; auto.
Qed.

(** Products and quotients of doubles that are [>= 0] are [>= 0], unless NaN. *)
Lemma SFmul_nonneg (x y : spec_float) :
  nonneg x -> nonneg y -> SFmul prec emax x y <> S754_nan ->
  nonneg (SFmul prec emax x y).
Proof.
  destruct x as [sx | [ | ] | | [ | ] mx ex], y as [sy | [ | ] | | [ | ] my ey];
    simpl; intros Hx Hy Hn; try contradiction; auto.
  apply has_sign_nonneg. apply binary_round_aux_sign. lia.
Qed.

Lemma SFdiv_core_binary_nonneg (m1 : positive) (e1 : Z) (m2 : positive) (e2 : Z) :
  0 <= fst (fst (SFdiv_core_binary prec emax (Zpos m1) e1 (Zpos m2) e2)).
Proof.
  unfold SFdiv_core_binary.
  set (s := _ - _ - _).
  set (m' := match s with Z0 => Zpos m1 | Zpos _ => Z.shiftl (Zpos m1) s | Zneg _ => 0 end).
  assert (Hm' : 0 <= m').
  { subst m'. destruct s; try lia. apply Z.shiftl_nonneg. lia. }
  pose proof (Z_div_mod m' (Zpos m2) ltac:(lia)) as H.
  destruct (Z.div_eucl m' (Zpos m2)) as [q r]. simpl.
  destruct H as [H1 H2]. nia.
Qed.

Lemma SFdiv_nonneg (x : spec_float) (m : positive) (e : Z) :
  nonneg x -> nonneg (SFdiv prec emax x (S754_finite false m e)).
Proof.
  destruct x as [sx | [ | ] | | [ | ] mx ex]; simpl; intros Hx;
    try contradiction; auto.
  pose proof (SFdiv_core_binary_nonneg mx ex m e) as H.
  destruct (SFdiv_core_binary prec emax (Zpos mx) ex (Zpos m) e) as [[mz ez] lz].
  simpl in H. apply has_sign_nonneg. apply binary_round_aux_sign. exact H.
Qed.

(** A double's exponent is the one its number of digits calls for. *)
Lemma bounded_spec (m : positive) (e : Z) :
  bounded prec emax m e = true ->
  e = Z.max (Zpos (digits2_pos m) + e - 53) (-1074) /\ e <= 971.
Proof.
  unfold bounded, canonical_mantissa.
  rewrite andb_true_iff, Z.eqb_eq, Z.leb_le, fexp_eq.
  change (emax - prec) with 971. lia.
Qed.

Lemma div_pow2_ge_1 (m d k : Z) :
  2 ^ (d - 1) <= m -> 0 <= k <= d - 1 -> 1 <= m / 2 ^ k.
Proof.
  intros Hm Hk. apply Z.div_le_lower_bound; [ apply Z.pow_pos_nonneg; lia | ].
  rewrite Z.mul_1_r. transitivity (2 ^ (d - 1)); [ | exact Hm ].
  apply Z.pow_le_mono_r; lia.
Qed.

Lemma scaled_le (a b k j : Z) :
  0 <= k -> 0 <= j -> a * 2 ^ (j + k) <= b * 2 ^ j -> a <= b / 2 ^ k.
Proof.
  intros Hk Hj H. assert (P1 : 0 < 2 ^ k) by (apply Z.pow_pos_nonneg; lia).
  assert (P2 : 0 < 2 ^ j) by (apply Z.pow_pos_nonneg; lia).
  apply Z.div_le_lower_bound; [ exact P1 | ].
  rewrite Z.pow_add_r in H by lia.
  apply Z.mul_le_mono_pos_r with (p := 2 ^ j); [ exact P2 | ]. nia.
Qed.

(** Digits grow with the value. *)
Lemma digits_le (mb : positive) (eb : Z) (mz : positive) (ez : Z) :
  0 <= eb -> 0 <= ez ->
  Zpos mb * 2 ^ eb <= Zpos mz * 2 ^ ez ->
  Zpos (digits2_pos mb) + eb <= Zpos (digits2_pos mz) + ez.
Proof.
  intros Heb Hez H.
  pose proof (digits2_pos_bounds mb) as [Hb _].
  pose proof (digits2_pos_bounds mz) as [_ Hz].
  assert (P1 : 0 < 2 ^ eb) by (apply Z.pow_pos_nonneg; lia).
  assert (P2 : 0 < 2 ^ ez) by (apply Z.pow_pos_nonneg; lia).
  assert (L : 2 ^ (Zpos (digits2_pos mb) - 1 + eb) < 2 ^ (Zpos (digits2_pos mz) + ez)).
  { rewrite !Z.pow_add_r by lia.
    apply Z.le_lt_trans with (Zpos mb * 2 ^ eb); [ nia | ].
    apply Z.le_lt_trans with (Zpos mz * 2 ^ ez); [ exact H | nia ]. }
  apply Z.pow_lt_mono_r_iff in L; lia.
Qed.

(** Rounding a positive value does not go below a double that the value is
    not below. *)
Lemma round_ge (mb : positive) (eb : Z) (mz : positive) (ez : Z) (l : location) :
  bounded prec emax mb eb = true ->
  -1074 <= ez ->
  Zpos mb * 2 ^ (eb + 1074) <= Zpos mz * 2 ^ (ez + 1074) ->
  SFleb (S754_finite false mb eb)
        (binary_round_aux prec emax false (Zpos mz) ez l) = true.
Proof.
  intros Hb Hez Hval. destruct (bounded_spec _ _ Hb) as [Heb Hmax].
  destruct (binary_round_aux_spec false (Zpos mz) ez l ltac:(lia)) as (m2 & Hr & ->).
  cbv zeta in Hr |- *. rewrite !fexp_eq in *. simpl Zdigits2 in *.
  pose proof (digits2_pos_bounds mz) as Hdz.
  pose proof (digits_le mb (eb + 1074) mz (ez + 1074) ltac:(lia) ltac:(lia) Hval) as Hd.
  set (d := Zpos (digits2_pos mz)) in *.
  set (k1 := Z.max (Z.max (d + ez - 53) (-1074) - ez) 0) in *.
  set (m1 := Zpos mz / 2 ^ k1) in *.
  set (e1 := ez + k1) in *.
  assert (Hk1 : 0 <= k1) by lia.
  assert (He1 : eb <= e1) by lia.
  assert (Hm1 : 1 <= m1).
  { apply (div_pow2_ge_1 (Zpos mz) d k1); lia. }
  assert (Hm1b : e1 = eb -> Zpos mb <= m1).
  { intros E. apply (scaled_le (Zpos mb) (Zpos mz) k1 (ez + 1074)); try lia.
    replace (ez + 1074 + k1) with (eb + 1074) by lia. exact Hval. }
  destruct m2 as [ | p2 | p2 ]; try lia.
  simpl Zdigits2. pose proof (digits2_pos_bounds p2) as Hd2.
  set (d2 := Zpos (digits2_pos p2)) in *.
  set (k2 := Z.max (Z.max (d2 + e1 - 53) (-1074) - e1) 0) in *.
  assert (Hk2 : 0 <= k2) by lia.
  assert (Hm3 : 1 <= Zpos p2 / 2 ^ k2).
  { apply (div_pow2_ge_1 (Zpos p2) d2 k2); lia. }
  assert (Hm3b : e1 + k2 = eb -> Zpos mb <= Zpos p2 / 2 ^ k2).
  { intros E. assert (k2 = 0) by lia. replace k2 with 0 by lia.
    rewrite Z.div_1_r. assert (e1 = eb) by lia. specialize (Hm1b ltac:(assumption)). lia. }
  destruct (Zpos p2 / 2 ^ k2) as [ | p3 | p3 ]; try lia.
  destruct (e1 + k2 <=? emax - prec); [ | reflexivity ].
  unfold SFleb. simpl.
  destruct (Z.compare_spec eb (e1 + k2)) as [E | L | G]; try reflexivity; try lia.
  specialize (Hm3b (eq_sym E)).
  change (Pos.compare_cont Eq mb p3) with (mb ?= p3)%positive.
  destruct (Pos.compare_spec mb p3); try reflexivity. lia.
Qed.

(** Aligning a mantissa to a smaller exponent multiplies it by a power of 2. *)
Lemma pos_iter_xO (m d : positive) : Zpos (Pos.iter xO m d) = Zpos m * 2 ^ Zpos d.
Proof.
  induction d as [ | d IH ] using Pos.peano_ind.
  - simpl. lia.
  - rewrite Pos.iter_succ, Pos2Z.inj_xO, IH, Pos2Z.inj_succ, Z.pow_succ_r; lia.
Qed.

Lemma shl_align_spec (m : positive) (e e' : Z) :
  snd (shl_align m e e') = Z.min e e' /\
  Zpos (fst (shl_align m e e')) = Zpos m * 2 ^ (e - Z.min e e').
Proof.
  unfold shl_align. destruct (e' - e) as [ | d | d ] eqn:E; simpl.
  - replace (e - Z.min e e') with 0 by lia. simpl. lia.
  - replace (e - Z.min e e') with 0 by lia. simpl. lia.
  - rewrite pos_iter_xO. replace (e - Z.min e e') with (Zpos d) by lia. lia.
Qed.

(** Adding a positive double to a positive double does not go below the
    first. *)
Lemma SFadd_finite_ge (mb : positive) (eb : Z) (mq : positive) (eq : Z) :
  bounded prec emax mb eb = true -> bounded prec emax mq eq = true ->
  SFleb (S754_finite false mb eb)
        (SFadd prec emax (S754_finite false mb eb) (S754_finite false mq eq)) = true /\
  nonneg (SFadd prec emax (S754_finite false mb eb) (S754_finite false mq eq)).
Proof.
  intros Hb Hq.
  destruct (bounded_spec _ _ Hb) as [Heb _]. destruct (bounded_spec _ _ Hq) as [Heq _].
  unfold SFadd, cond_Zopp.
  set (ez := Z.min eb eq).
  destruct (shl_align_spec mb eb ez) as [_ Hmb']. destruct (shl_align_spec mq eq ez) as [_ Hmq'].
  replace (Z.min eb ez) with ez in Hmb' by lia.
  replace (Z.min eq ez) with ez in Hmq' by lia.
  set (mb' := fst (shl_align mb eb ez)) in *. set (mq' := fst (shl_align mq eq ez)) in *.
  change (Zpos mb' + Zpos mq') with (Zpos (mb' + mq')).
  unfold binary_normalize, binary_round.
  destruct (shl_align_spec (mb' + mq') ez
              (fexp prec emax (Zpos (digits2_pos (mb' + mq')) + ez))) as [He' Hm'].
  rewrite fexp_eq in *.
  destruct (shl_align (mb' + mq') ez (Z.max (Zpos (digits2_pos (mb' + mq')) + ez - 53) (-1074)))
    as [mz ez'].
  simpl in He', Hm'.
  split.
  - apply round_ge; [ exact Hb | lia | ].
    assert (P0 : 0 < 2 ^ (ez' + 1074)) by (apply Z.pow_pos_nonneg; lia).
    assert (P1 : 0 <= 2 ^ (eq - ez)) by (apply Z.pow_nonneg; lia).
    rewrite Hm'. rewrite <- He'.
    replace (eb + 1074) with ((eb - ez) + ((ez - ez') + (ez' + 1074))) by lia.
    rewrite !Z.pow_add_r by lia.
    rewrite Pos2Z.inj_add, Hmb', Hmq'.
    assert (P2 : 0 <= 2 ^ (ez - ez')) by (apply Z.pow_nonneg; lia).
    assert (P3 : 0 <= 2 ^ (eb - ez)) by (apply Z.pow_nonneg; lia).
    nia.
  - apply has_sign_nonneg. apply binary_round_aux_sign. lia.
Qed.

Lemma SFleb_refl (x : spec_float) : x <> S754_nan -> SFleb x x = true.
Proof.
  intros H. unfold SFleb. rewrite DoubleFacts.SFcompare_refl by exact H. reflexivity.
Qed.

(** Adding a double that is [>= 0] to one that is [>= 0] gives a double that
    is not below the first, and is [>= 0]. *)
Lemma SFadd_nonneg_ge (x y : spec_float) :
  valid_binary x = true -> valid_binary y = true -> nonneg x -> nonneg y ->
  SFleb x (SFadd prec emax x y) = true /\ nonneg (SFadd prec emax x y).
Proof.
  destruct x as [sx | [ | ] | | [ | ] mx ex], y as [sy | [ | ] | | [ | ] my ey];
    intros Vx Vy Hx Hy; try contradiction;
    try (apply SFadd_finite_ge; assumption);
    try (destruct sx); try (destruct sy); simpl; split; auto;
    apply SFleb_refl; discriminate.
Qed.

(** With a balance and a rate that are [>= 0] and whose product is defined,
    the balance after [applyInterest] is not below the balance before. *)
Lemma interest_ge (b r : double) :
  ge b 0 = true -> ge r 0 = true -> isnan (b * r)%float = false ->
  ge (b + b * r / 100)%float b = true /\ ge (b + b * r / 100)%float 0 = true.
Proof.
  intros Hb Hr Hn. rewrite ge_zero_spec in Hb, Hr.
  rewrite DoubleFacts.isnan_false, mul_spec in Hn.
  assert (Hp : nonneg (Prim2SF (b * r)%float)).
  { rewrite mul_spec. apply SFmul_nonneg; assumption. }
  assert (Hq : nonneg (Prim2SF (b * r / 100)%float)).
  { rewrite div_spec. change (Prim2SF 100) with (S754_finite false 7036874417766400 (-46)).
    apply SFdiv_nonneg. exact Hp. }
  destruct (SFadd_nonneg_ge (Prim2SF b) (Prim2SF (b * r / 100)%float)
              (Prim2SF_valid _) (Prim2SF_valid _) Hb Hq) as [L N].
  split.
  - unfold ge. rewrite FloatAxioms.leb_spec, add_spec. exact L.
  - rewrite ge_zero_spec, add_spec. exact N.
Qed.

End RoundingFacts.

Import DoubleFacts.

(** ** Construction *)

(** C5. The constructor accepts every argument tuple and stores the arguments
    as they come: afterwards [balance] is [initialBalance] and
    [interestRate] is [rate] (and likewise the three strings), whether or not
    the balance is negative, the rate lies in [0, 50], or the name is empty.
    The two defaults are ["Savings"] and [0.0]. *)
Theorem constructor_stores_arguments :
  forall (accNum holder : string) (initialBalance : double) (type : string)
         (rate : double),
    let a := fst (BankAccount_new accNum holder initialBalance type rate) in
    balance a = initialBalance /\
    interestRate a = rate /\
    accountNumber a = accNum /\
    accountHolder a = holder /\
    accountType a = type /\
    signalled (snd (BankAccount_new accNum holder initialBalance type rate)) = None /\
    fst (BankAccount_new4 accNum holder initialBalance type)
      = mkBankAccount accNum holder initialBalance type 0 /\
    fst (BankAccount_new3 accNum holder initialBalance)
      = mkBankAccount accNum holder initialBalance "Savings" 0.
Proof.
  intros. subst a. unfold BankAccount_new4, BankAccount_new3, BankAccount_new.
  simpl. repeat split; reflexivity.
Qed.

(** A negative opening balance and a rate of 75% are constructed as given. *)
Example constructor_negative_balance_rate_75 :
  let a := fst (BankAccount_new "ACC003" "" (-100) "Savings" 75) in
  balance a = (-100)%float /\ interestRate a = 75%float /\ accountHolder a = "".
Proof. repeat split; reflexivity. Qed.

(** Every record is what the constructor builds from its five fields. *)
Lemma constructor_surjective (a : BankAccount) :
  fst (BankAccount_new (accountNumber a) (accountHolder a) (balance a)
         (accountType a) (interestRate a)) = a.
Proof. destruct a; reflexivity. Qed.

(** ** setInterestRate *)

Lemma setInterestRate_cases (rate : double) (a : BankAccount) :
  (ge rate 0 && le rate 50 = true /\
   returned (setInterestRate rate a) = true /\
   after (setInterestRate rate a) = set_interestRate a rate /\
   signalled (printed (setInterestRate rate a)) = None) \/
  (ge rate 0 && le rate 50 = false /\
   returned (setInterestRate rate a) = false /\
   after (setInterestRate rate a) = a /\
   signalled (printed (setInterestRate rate a)) = Some InvalidInterestRate).
Proof.
  unfold setInterestRate, returned, after, printed.
  destruct (ge rate 0 && le rate 50); [ left | right ]; repeat split; reflexivity.
Qed.

(** C6. [setInterestRate(rate)] returns [true] exactly when
    [0 <= rate && rate <= 50]; then [interestRate] becomes [rate] and no other
    field changes. Otherwise it returns [false], prints the invalid-rate line
    and leaves the object as it was. The rates 50.0 and 0.0 are accepted,
    50.0001 and -0.0001 are refused. *)
Theorem setInterestRate_spec :
  forall (rate : double) (a : BankAccount),
    let r := setInterestRate rate a in
    (returned r = true <-> ((0 <=? rate)%float = true /\ (rate <=? 50)%float = true)) /\
    (returned r = true ->
       interestRate (after r) = rate /\ after r = set_interestRate a rate) /\
    (returned r = false ->
       after r = a /\ signalled (printed r) = Some InvalidInterestRate) /\
    returned (setInterestRate 50.0 a) = true /\
    returned (setInterestRate 0.0 a) = true /\
    returned (setInterestRate 50.0001 a) = false /\
    returned (setInterestRate (-0.0001) a) = false.
Proof.
  intros rate a r. subst r.
  destruct (setInterestRate_cases rate a) as [(C & R & A & S) | (C & R & A & S)];
    rewrite R, A, S; unfold ge, le in C.
  - apply andb_true_iff in C.
    repeat split; try reflexivity; try tauto; intros; discriminate.
  - apply andb_false_iff in C.
    repeat split; try reflexivity; try discriminate.
    intros [H1 H2]. destruct C; congruence.
Qed.

(** ** applyInterest *)

(** C7. [applyInterest()] has a single path: it computes
    [interestAmount = balance * interestRate / 100], adds it to [balance],
    changes nothing else, prints the success lines and returns
    [interestAmount]. With balance 5000 and rate 3.5 it returns 175 and the
    balance becomes 5175. *)
Theorem applyInterest_spec :
  forall a : BankAccount,
    let interestAmount := (balance a * interestRate a / 100)%float in
    returned (applyInterest a) = interestAmount /\
    after (applyInterest a) = set_balance a (balance a + interestAmount)%float /\
    balance (after (applyInterest a)) = (balance a + interestAmount)%float /\
    signalled (printed (applyInterest a)) = None /\
    hd_error (printed (applyInterest a)) = Some (OStr "✓ Interest Applied!") /\
    returned (applyInterest account1) = 175.0%float /\
    balance (after (applyInterest account1)) = 5175.0%float /\
    (balance account1 = 5000%float /\ interestRate account1 = 3.5%float).
Proof.
  intros a interestAmount. subst interestAmount.
  unfold applyInterest, returned, after, printed. simpl.
  repeat split; reflexivity.
Qed.

(** ** withdraw *)

(** The three paths of [withdraw], in the order the code tests them. *)
Lemma withdraw_cases (amount : double) (a : BankAccount) :
  (gt amount 0 = false /\
   returned (withdraw amount a) = false /\
   after (withdraw amount a) = a /\
   signalled (printed (withdraw amount a)) = Some InvalidAmount) \/
  (gt amount 0 = true /\ gt amount (balance a) = true /\
   returned (withdraw amount a) = false /\
   after (withdraw amount a) = a /\
   signalled (printed (withdraw amount a)) = Some InsufficientFunds) \/
  (gt amount 0 = true /\ gt amount (balance a) = false /\
   returned (withdraw amount a) = true /\
   after (withdraw amount a) = set_balance a (balance a - amount)%float /\
   signalled (printed (withdraw amount a)) = None).
Proof.
  unfold withdraw, isValidAmount, returned, after, printed.
  destruct (gt amount 0); simpl; [ | left; repeat split; reflexivity ].
  destruct (gt amount (balance a)); simpl; right; [ left | right ];
    repeat split; reflexivity.
Qed.

(** Not [x > 0] is [x <= 0] or [x] is NaN. *)
Lemma not_positive (x : double) :
  gt x 0 = false <-> (le x 0 = true \/ isnan x = true).
Proof.
  destruct (isnan x) eqn:N.
  - split; [ auto | intros _ ].
    destruct (gt x 0) eqn:G; [ | reflexivity ].
    apply gt_true_not_nan in G. destruct G; congruence.
  - rewrite (not_gt_iff_le x 0 N eq_refl). split; [ auto | ].
    intros [H | H]; [ exact H | discriminate ].
Qed.

(** An account with a NaN balance is reachable through the public calls
    alone: depositing infinity makes the balance infinite, and withdrawing
    infinity (which is not greater than the balance) leaves [inf - inf]. *)
Lemma nan_balance_reachable :
  exists σ a,
    run [(1, Deposit infinity); (1, Withdraw infinity)] main_store = Some σ /\
    σ !! 1 = Some a /\ isnan (balance a) = true.
Proof.
  eexists. eexists. split; [ vm_compute; reflexivity | ].
  split; [ vm_compute; reflexivity | reflexivity ].
Qed.

(** C1, as stated, fails on a NaN balance. [1 > 0] holds and [1 > NaN] does
    not, so the overdraft test lets the withdrawal through and [withdraw(1)]
    returns [true], although [1 <= balance] is false. *)
Lemma withdraw_nan_balance_succeeds :
  let a := mkBankAccount "ACC001" "John Doe" nan "Savings" 3.5 in
  ~ (returned (withdraw 1 a) = true <->
     (gt 1 0 = true /\ le 1 (balance a) = true)).
Proof.
  intros a [H _].
  assert (E : returned (withdraw 1 a) = true) by reflexivity.
  destruct (H E) as [_ L]. vm_compute in L. discriminate.
Qed.

(** On a NaN balance every positive amount is withdrawn. *)
Lemma withdraw_on_nan_balance (a : BankAccount) (amount : double) :
  isnan (balance a) = true -> gt amount 0 = true ->
  returned (withdraw amount a) = true /\
  isnan (balance (after (withdraw amount a))) = true.
Proof.
  intros N G.
  destruct (withdraw_cases amount a)
    as [(G' & _) | [(_ & B & _) | (_ & _ & R & A & _)]]; try congruence.
  - apply gt_true_not_nan in B. destruct B; congruence.
  - split; [ exact R | ]. rewrite A. simpl.
    apply isnan_spec. rewrite sub_spec.
    apply isnan_spec in N. rewrite N. reflexivity.
Qed.

(** "By exactly amount" is to be read in doubles: on a balance of 2^54 the
    withdrawal of 1 succeeds and the balance, [2^54 - 1] rounded, is what it
    was. *)
Lemma withdraw_rounds :
  let a := mkBankAccount "ACC001" "John Doe" 18014398509481984 "Savings" 3.5 in
  returned (withdraw 1 a) = true /\
  balance (after (withdraw 1 a)) = balance a.
Proof. split; reflexivity. Qed.

(** C1, amended. On an account whose balance is not NaN, [withdraw(amount)]
    returns [true] exactly when [amount > 0] and [amount <= balance], and the
    balance then becomes the double [balance - amount], nothing else
    changing. Otherwise it returns [false] and leaves the object as it was,
    after printing the invalid-amount line when [amount > 0] is false (that
    is, [amount <= 0] or [amount] is NaN), and the insufficient-funds line
    when [amount > balance]. *)
Theorem withdraw_spec (a : BankAccount) (amount : double) :
  isnan (balance a) = false ->
  let r := withdraw amount a in
  (returned r = true <-> (gt amount 0 = true /\ le amount (balance a) = true)) /\
  (returned r = true ->
     after r = set_balance a (balance a - amount)%float /\
     balance (after r) = (balance a - amount)%float) /\
  (returned r = false ->
     after r = a /\
     ((gt amount 0 = false /\ signalled (printed r) = Some InvalidAmount) \/
      (gt amount 0 = true /\ gt amount (balance a) = true /\
       signalled (printed r) = Some InsufficientFunds))) /\
  (gt amount 0 = false <-> (le amount 0 = true \/ isnan amount = true)).
Proof.
  intros NB r. subst r.
  split; [ | split; [ | split; [ | apply not_positive ] ] ].
  - destruct (withdraw_cases amount a)
      as [(G & R & _) | [(G & B & R & _) | (G & B & R & _)]]; rewrite R.
    + split; [ discriminate | intros [G' _]; congruence ].
    + split; [ discriminate | intros [_ L] ].
      apply le_not_gt in L. congruence.
    + split; [ intros _ | reflexivity ].
      split; [ exact G | ].
      apply not_gt_le; [ | exact NB | exact B ].
      apply gt_true_not_nan in G. tauto.
  - destruct (withdraw_cases amount a)
      as [(G & R & _) | [(G & B & R & _) | (G & B & R & A & _)]];
      rewrite R; try discriminate.
    intros _. rewrite A. split; reflexivity.
  - destruct (withdraw_cases amount a)
      as [(G & R & A & S) | [(G & B & R & A & S) | (G & B & R & _)]];
      rewrite R; try discriminate; intros _; rewrite A, S; auto.
Qed.

Lemma withdraw_spec_witness :
  isnan (balance account1) = false /\
  (returned (withdraw 3000 account1) = true <->
     (gt 3000 0 = true /\ le 3000 (balance account1) = true)) /\
  balance (after (withdraw 3000 account1)) = 2000%float /\
  returned (withdraw 100000 account1) = false /\
  signalled (printed (withdraw 100000 account1)) = Some InsufficientFunds.
Proof.
  pose proof (withdraw_spec account1 3000 eq_refl) as (S1 & S2 & _).
  split; [ reflexivity | ].
  split; [ exact S1 | ].
  split; [ destruct (S2 eq_refl) as [_ ->]; reflexivity | ].
  split; reflexivity.
Defined.

(** ** Calls through the store *)

Lemma call_Some {R : Type} (m : method R) (this : ref) (σ : store) (a : BankAccount) :
  σ !! this = Some a ->
  call m this σ = Some (returned (m a), <[this := after (m a)]> σ, printed (m a)).
Proof.
  intros H. unfold call, returned, after, printed. rewrite H.
  destruct (m a) as [[r a'] out]. reflexivity.
Qed.

Lemma call_inv {R : Type} (m : method R) (this : ref) (σ σ' : store) (v : R)
    (out : console) :
  call m this σ = Some (v, σ', out) ->
  exists a, σ !! this = Some a /\ v = returned (m a) /\
            σ' = <[this := after (m a)]> σ /\ out = printed (m a).
Proof.
  unfold call. destruct (σ !! this) as [a|] eqn:E; [ | discriminate ].
  intros H. exists a. unfold returned, after, printed.
  destruct (m a) as [[r a'] o]. simpl. inversion H; subst.
  repeat split; reflexivity.
Qed.

(** The three paths of [transfer]. *)
Lemma transfer_cases (this toAccount : ref) (amount : double) (σ : store)
    (a b : BankAccount) :
  σ !! this = Some a -> σ !! toAccount = Some b ->
  (gt amount 0 = false /\
   exists out, transfer this toAccount amount σ = Some (false, σ, out) /\
               signalled out = Some InvalidAmount) \/
  (gt amount 0 = true /\ gt amount (balance a) = true /\
   exists out, transfer this toAccount amount σ = Some (false, σ, out) /\
               signalled out = Some InsufficientFunds) \/
  (gt amount 0 = true /\ gt amount (balance a) = false /\
   exists out, transfer this toAccount amount σ
                 = Some (true, transferred this toAccount amount a b σ, out) /\
               signalled out = None).
Proof.
  intros Ha Hb. unfold transfer, isValidAmount. rewrite Ha, Hb.
  destruct (gt amount 0); simpl;
    [ | left; split; [ reflexivity | eexists; split; reflexivity ] ].
  right.
  destruct (gt amount (balance a)); simpl;
    [ left; split; [ reflexivity | split; [ reflexivity | ] ];
      eexists; split; reflexivity | ].
  right. split; [ reflexivity | split; [ reflexivity | ] ].
  unfold transferred. destruct (decide (this = toAccount)) as [-> | Hne].
  - rewrite lookup_insert_eq. rewrite lookup_insert_eq.
    eexists; split; reflexivity.
  - rewrite lookup_insert_ne by exact Hne. rewrite Hb.
    rewrite lookup_insert_ne by congruence. rewrite lookup_insert_eq.
    eexists; split; reflexivity.
Qed.

Lemma transfer_inv (this toAccount : ref) (amount : double) (σ σ' : store)
    (v : bool) (out : console) :
  transfer this toAccount amount σ = Some (v, σ', out) ->
  exists a b, σ !! this = Some a /\ σ !! toAccount = Some b.
Proof.
  unfold transfer.
  destruct (σ !! this) as [a|]; [ | discriminate ].
  destruct (σ !! toAccount) as [b|]; [ | discriminate ].
  intros _. eauto.
Qed.

(** A call is defined as soon as the references it uses name objects. *)
Lemma invoke_defined (this : ref) (i : invocation) (σ : store) :
  Forall (fun r => is_Some (σ !! r)) (refs_of (this, i)) ->
  is_Some (invoke this i σ).
Proof.
  intros H.
  assert (Ht : is_Some (σ !! this)).
  { destruct i; simpl in H; inversion H; assumption. }
  destruct Ht as [a Ha].
  destruct i; simpl;
    try (rewrite (call_Some _ this σ a Ha); simpl; eauto).
  simpl in H. inversion H as [ | ? ? _ H2 ]; subst.
  inversion H2 as [ | ? ? [b Hb] _ ]; subst.
  destruct (transfer_cases this toAccount amount σ a b Ha Hb)
    as [(_ & o & -> & _) | [(_ & _ & o & -> & _) | (_ & _ & o & -> & _)]];
    simpl; eauto.
Qed.

(** ** What a call can do to an object *)

#[local] Hint Constructors evolves : core.

Lemma evolves_trans (a b c : BankAccount) :
  evolves a b -> evolves b c -> evolves a c.
Proof. intros Hab Hbc. induction Hbc; eauto. Qed.

Lemma deposit_evolves (amount : double) (a : BankAccount) :
  evolves a (after (deposit amount a)).
Proof.
  unfold deposit, after. destruct (negb (isValidAmount amount)); simpl; auto.
Qed.

Lemma withdraw_evolves (amount : double) (a : BankAccount) :
  evolves a (after (withdraw amount a)).
Proof.
  unfold withdraw, after. destruct (negb (isValidAmount amount)); simpl; auto.
  destruct (gt amount (balance a)); simpl; auto.
Qed.

Lemma setInterestRate_evolves (rate : double) (a : BankAccount) :
  evolves a (after (setInterestRate rate a)).
Proof.
  unfold setInterestRate, after.
  destruct (ge rate 0 && le rate 50) eqn:E; simpl; auto.
Qed.

Lemma setAccountHolder_evolves (newHolder : string) (a : BankAccount) :
  evolves a (after (setAccountHolder newHolder a)).
Proof.
  unfold setAccountHolder, after.
  destruct (string_empty newHolder) eqn:E; simpl; auto.
Qed.

Lemma applyInterest_evolves (a : BankAccount) :
  evolves a (after (applyInterest a)).
Proof. unfold applyInterest, after. simpl. auto. Qed.

Lemma store_evolves_refl (σ : store) : store_evolves σ σ.
Proof. intros r. destruct (σ !! r); constructor. auto. Qed.

Lemma store_evolves_trans (σ1 σ2 σ3 : store) :
  store_evolves σ1 σ2 -> store_evolves σ2 σ3 -> store_evolves σ1 σ3.
Proof.
  intros H12 H23 r. specialize (H12 r). specialize (H23 r).
  destruct H12 as [a b Hab | ]; inversion H23; subst; constructor.
  eapply evolves_trans; eassumption.
Qed.

Lemma store_evolves_insert (σ : store) (r : ref) (a a' : BankAccount) :
  σ !! r = Some a -> evolves a a' -> store_evolves σ (<[r := a']> σ).
Proof.
  intros Hr He q. destruct (decide (r = q)) as [<- | Hne].
  - rewrite lookup_insert_eq, Hr. constructor. exact He.
  - rewrite lookup_insert_ne by exact Hne. apply store_evolves_refl.
Qed.

Lemma call_evolves {R : Type} (m : method R) (this : ref) (σ σ' : store)
    (v : R) (out : console) :
  (forall a, evolves a (after (m a))) ->
  call m this σ = Some (v, σ', out) -> store_evolves σ σ'.
Proof.
  intros Hm H. apply call_inv in H. destruct H as (a & Ha & _ & -> & _).
  eapply store_evolves_insert; eauto.
Qed.

Lemma transfer_evolves (this toAccount : ref) (amount : double) (σ σ' : store)
    (v : bool) (out : console) :
  transfer this toAccount amount σ = Some (v, σ', out) -> store_evolves σ σ'.
Proof.
  intros H. destruct (transfer_inv _ _ _ _ _ _ _ H) as (a & b & Ha & Hb).
  destruct (transfer_cases this toAccount amount σ a b Ha Hb)
    as [(_ & o & E & _) | [(_ & _ & o & E & _) | (_ & _ & o & E & _)]];
    rewrite E in H; inversion H; subst; try apply store_evolves_refl.
  unfold transferred.
  apply (store_evolves_trans _
           (<[this := set_balance a (balance a - amount)%float]> σ)).
  - apply (store_evolves_insert σ this a); [ exact Ha | eauto ].
  - destruct (decide (this = toAccount)) as [-> | Hne].
    + apply (store_evolves_insert _ toAccount
               (set_balance a (balance a - amount)%float));
        [ apply lookup_insert_eq | eauto ].
    + apply (store_evolves_insert _ toAccount b); [ | eauto ].
      rewrite lookup_insert_ne by exact Hne. exact Hb.
Qed.

Lemma invoke_evolves (this : ref) (i : invocation) (σ σ' : store)
    (v : value) (out : console) :
  invoke this i σ = Some (v, σ', out) -> store_evolves σ σ'.
Proof.
  destruct i; simpl; unfold with_value;
    match goal with
    | |- context [transfer ?t ?u ?x ?s] =>
        destruct (transfer t u x s) as [[[b s'] o]|] eqn:E; [ | discriminate ];
        intros H; inversion H; subst; eapply transfer_evolves; eassumption
    | |- context [call ?m ?t ?s] =>
        destruct (call m t s) as [[[b s'] o]|] eqn:E; [ | discriminate ];
        intros H; inversion H; subst; eapply call_evolves; [ | eassumption ]
    end;
    auto using deposit_evolves, withdraw_evolves, setInterestRate_evolves,
      setAccountHolder_evolves, applyInterest_evolves.
Qed.

Lemma run_evolves (p : list (ref * invocation)) (σ σ' : store) :
  run p σ = Some σ' -> store_evolves σ σ'.
Proof.
  revert σ. induction p as [ | [this i] p IH ]; intros σ; simpl.
  - intros H. inversion H; subst. apply store_evolves_refl.
  - destruct (invoke this i σ) as [[[v σ1] out]|] eqn:E; [ | discriminate ].
    intros H. eapply store_evolves_trans; [ | apply IH; exact H ].
    eapply invoke_evolves; eassumption.
Qed.

(** Such a program runs to its end. *)
Lemma run_defined (p : list (ref * invocation)) (σ : store) :
  well_referenced p σ -> is_Some (run p σ).
Proof.
  revert σ. induction p as [ | [this i] p IH ]; intros σ H; simpl.
  - eauto.
  - inversion H as [ | ? ? Hc Hp ]; subst.
    destruct (invoke_defined this i σ Hc) as [[[v σ1] out] E]. rewrite E.
    apply IH. pose proof (invoke_evolves _ _ _ _ _ _ E) as Hev.
    eapply Forall_impl; [ exact Hp | ]. intros c Hrefs.
    eapply Forall_impl; [ exact Hrefs | ]. intros r [a Hr]. simpl.
    specialize (Hev r). rewrite Hr in Hev. inversion Hev. eauto.
Qed.

(** What survives every evolution. *)
Lemma evolves_accountNumber (a a' : BankAccount) :
  evolves a a' -> accountNumber a' = accountNumber a.
Proof. induction 1; simpl; auto. Qed.

Lemma evolves_accountType (a a' : BankAccount) :
  evolves a a' -> accountType a' = accountType a.
Proof. induction 1; simpl; auto. Qed.

Lemma evolves_rate_in_range (a a' : BankAccount) :
  evolves a a' -> rate_in_range (interestRate a) -> rate_in_range (interestRate a').
Proof.
  induction 1; simpl; auto. intros _. apply andb_true_iff. assumption.
Qed.

Lemma evolves_holder_nonempty (a a' : BankAccount) :
  evolves a a' -> accountHolder a <> "" -> accountHolder a' <> "".
Proof.
  induction 1; simpl; auto. intros _ ->. discriminate.
Qed.

(** ** transfer *)


(** The same with everyday amounts: 0.01 out of 0.02 into 0.07. Both
    balances move, but the sum read back in doubles differs from the sum
    before. *)
Lemma transfer_not_conserved_cents :
  let a := mkBankAccount "ACC001" "John Doe" 0.02 "Savings" 3.5 in
  let b := mkBankAccount "ACC002" "Jane Smith" 0.07 "Checking" 1 in
  let σ : store := <[1 := a]> (<[2 := b]> ∅) in
  gt 0.01 0 = true /\ le 0.01 (balance a) = true /\
  exists (σ' : store) (out : console) (a' b' : BankAccount),
    transfer 1 2 0.01 σ = Some (true, σ', out) /\
    σ' !! 1 = Some a' /\ σ' !! 2 = Some b' /\
    (balance a' + balance b' =? balance a + balance b)%float = false.
Proof.
  intros a b σ. split; [ reflexivity | ]. split; [ reflexivity | ].
  eexists. eexists. eexists. eexists.
  split; [ vm_compute; reflexivity | ].
  split; [ vm_compute; reflexivity | ].
  split; [ vm_compute; reflexivity | ]. reflexivity.
Qed.



(** ** deposit, setAccountHolder *)

Lemma deposit_cases (amount : double) (a : BankAccount) :
  (gt amount 0 = false /\
   returned (deposit amount a) = false /\
   after (deposit amount a) = a /\
   signalled (printed (deposit amount a)) = Some InvalidAmount) \/
  (gt amount 0 = true /\
   returned (deposit amount a) = true /\
   after (deposit amount a) = set_balance a (balance a + amount)%float /\
   signalled (printed (deposit amount a)) = None).
Proof.
  unfold deposit, isValidAmount, returned, after, printed.
  destruct (gt amount 0); simpl; [ right | left ]; repeat split; reflexivity.
Qed.

Lemma string_empty_spec (s : string) : string_empty s = true <-> s = "".
Proof. destruct s; simpl; split; congruence. Qed.

Lemma setAccountHolder_cases (newHolder : string) (a : BankAccount) :
  (newHolder = "" /\
   returned (setAccountHolder newHolder a) = false /\
   after (setAccountHolder newHolder a) = a /\
   signalled (printed (setAccountHolder newHolder a)) = Some InvalidHolderName) \/
  (newHolder <> "" /\
   returned (setAccountHolder newHolder a) = true /\
   after (setAccountHolder newHolder a) = set_accountHolder a newHolder /\
   signalled (printed (setAccountHolder newHolder a)) = None).
Proof.
  unfold setAccountHolder, returned, after, printed.
  destruct newHolder; simpl; [ left | right ]; repeat split;
    try reflexivity; discriminate.
Qed.

(** ** Failure leaves the state alone *)

(** A call that returns [false] leaves the whole store as it was and has
    printed one of the four failure lines. *)
Lemma failed_invoke (this : ref) (i : invocation) (σ σ' : store) (out : console) :
  invoke this i σ = Some (VBool false, σ', out) ->
  σ' = σ /\ exists s, signalled out = Some s.
Proof.
  destruct i; simpl; unfold with_value.
  - destruct (call (deposit amount) this σ) as [[[v s] o]|] eqn:E; [ | discriminate ].
    intros H; inversion H; subst. apply call_inv in E.
    destruct E as (a & Ha & R & -> & ->).
    destruct (deposit_cases amount a) as [(_ & _ & -> & ->) | (_ & R' & _)];
      [ | congruence ].
    rewrite insert_id by exact Ha. eauto.
  - destruct (call (withdraw amount) this σ) as [[[v s] o]|] eqn:E; [ | discriminate ].
    intros H; inversion H; subst. apply call_inv in E.
    destruct E as (a & Ha & R & -> & ->).
    destruct (withdraw_cases amount a)
      as [(_ & _ & -> & ->) | [(_ & _ & _ & -> & ->) | (_ & _ & R' & _)]];
      try congruence; rewrite insert_id by exact Ha; eauto.
  - destruct (transfer this toAccount amount σ) as [[[v s] o]|] eqn:E; [ | discriminate ].
    intros H; inversion H; subst.
    destruct (transfer_inv _ _ _ _ _ _ _ E) as (a & b & Ha & Hb).
    destruct (transfer_cases this toAccount amount σ a b Ha Hb)
      as [(_ & o' & E' & S) | [(_ & _ & o' & E' & S) | (_ & _ & o' & E' & S)]];
      rewrite E' in E; inversion E; subst; eauto.
  - destruct (call (setInterestRate rate) this σ) as [[[v s] o]|] eqn:E; [ | discriminate ].
    intros H; inversion H; subst. apply call_inv in E.
    destruct E as (a & Ha & R & -> & ->).
    destruct (setInterestRate_cases rate a) as [(_ & R' & _) | (_ & _ & -> & ->)];
      [ congruence | ].
    rewrite insert_id by exact Ha. eauto.
  - destruct (call (setAccountHolder newHolder) this σ) as [[[v s] o]|] eqn:E;
      [ | discriminate ].
    intros H; inversion H; subst. apply call_inv in E.
    destruct E as (a & Ha & R & -> & ->).
    destruct (setAccountHolder_cases newHolder a) as [(_ & _ & -> & ->) | (_ & R' & _)];
      [ | congruence ].
    rewrite insert_id by exact Ha. eauto.
  - destruct (call applyInterest this σ) as [[[v s] o]|]; discriminate.
Qed.

(** C3. Each of [deposit], [withdraw], [transfer], [setInterestRate] and
    [setAccountHolder] returns [false] when one of its tests rejects the
    argument, and whenever one of them returns [false] the store is exactly
    what it was before the call: the object called, the destination of a
    transfer and every other object. [deposit(-1)] returns [false] on every
    account and leaves it unchanged. *)
Theorem failure_leaves_state_unchanged :
  (forall this i σ σ' out,
     invoke this i σ = Some (VBool false, σ', out) ->
     σ' = σ /\ exists s, signalled out = Some s) /\
  (forall amount a,
     gt amount 0 = false ->
     returned (deposit amount a) = false /\ after (deposit amount a) = a) /\
  (forall amount a,
     gt amount 0 = false \/ gt amount (balance a) = true ->
     returned (withdraw amount a) = false /\ after (withdraw amount a) = a) /\
  (forall this toAccount amount (σ : store) a b,
     σ !! this = Some a -> σ !! toAccount = Some b ->
     gt amount 0 = false \/ gt amount (balance a) = true ->
     exists out, transfer this toAccount amount σ = Some (false, σ, out)) /\
  (forall rate a,
     ge rate 0 && le rate 50 = false ->
     returned (setInterestRate rate a) = false /\ after (setInterestRate rate a) = a) /\
  (forall newHolder a,
     newHolder = "" ->
     returned (setAccountHolder newHolder a) = false /\
     after (setAccountHolder newHolder a) = a) /\
  (forall a,
     returned (deposit (-1) a) = false /\ after (deposit (-1) a) = a /\
     balance (after (deposit (-1) a)) = balance a /\
     signalled (printed (deposit (-1) a)) = Some InvalidAmount).
Proof.
  split; [ exact failed_invoke | ].
  split.
  { intros amount a G.
    destruct (deposit_cases amount a) as [(_ & R & A & _) | (G' & _)];
      [ auto | congruence ]. }
  split.
  { intros amount a G.
    destruct (withdraw_cases amount a)
      as [(_ & R & A & _) | [(_ & _ & R & A & _) | (G1 & G2 & _)]]; auto.
    destruct G; congruence. }
  split.
  { intros this toAccount amount σ a b Ha Hb G.
    destruct (transfer_cases this toAccount amount σ a b Ha Hb)
      as [(_ & o & E & _) | [(_ & _ & o & E & _) | (G1 & G2 & _)]]; eauto.
    destruct G; congruence. }
  split.
  { intros rate a G.
    destruct (setInterestRate_cases rate a) as [(G' & _) | (_ & R & A & _)];
      [ congruence | auto ]. }
  split.
  { intros newHolder a G.
    destruct (setAccountHolder_cases newHolder a) as [(_ & R & A & _) | (G' & _)];
      [ auto | contradiction ]. }
  intros a. repeat split; reflexivity.
Qed.

Lemma failure_leaves_state_unchanged_witness :
  gt (-1000) 0 = false /\
  returned (deposit (-1000) account1) = false /\
  after (deposit (-1000) account1) = account1 /\
  (gt 100000 0 = false \/ gt 100000 (balance account1) = true) /\
  returned (withdraw 100000 account1) = false /\
  after (withdraw 100000 account1) = account1.
Proof.
  destruct failure_leaves_state_unchanged as (_ & D & W & _).
  assert (G : gt (-1000) 0 = false) by reflexivity.
  assert (B : gt 100000 0 = false \/ gt 100000 (balance account1) = true)
    by (right; reflexivity).
  split; [ exact G | ].
  destruct (D (-1000)%float account1 G) as [D1 D2].
  split; [ exact D1 | ]. split; [ exact D2 | ]. split; [ exact B | ].
  exact (W 100000%float account1 B).
Defined.

(** ** Invariants over sequences of calls *)

Lemma constructed_lookup (l : list ctor_args) (r : ref) (a : BankAccount) :
  constructed l !! r = Some a -> exists x, x ∈ l /\ a = construct x.
Proof.
  unfold constructed. intros H. apply lookup_map_seq_Some in H.
  destruct H as [_ H]. rewrite list_lookup_fmap in H.
  destruct (l !! (r - 1)) as [x|] eqn:E; [ | discriminate ].
  simpl in H. inversion H; subst. exists x. split; [ | reflexivity ].
  eapply list_elem_of_lookup_2. exact E.
Qed.

(** A property of single objects that every evolution keeps is kept by every
    program object by object, whatever the other objects of the store are;
    the program runs to its end and the store keeps its references. *)
Lemma run_preserves (P : BankAccount -> Prop) (p : list (ref * invocation))
    (σ : store) :
  (forall a a', evolves a a' -> P a -> P a') ->
  well_referenced p σ ->
  exists σ', run p σ = Some σ' /\
    (forall r a, σ !! r = Some a ->
       exists a', σ' !! r = Some a' /\ (P a -> P a')) /\
    (forall r, σ !! r = None -> σ' !! r = None).
Proof.
  intros HP Hp. destruct (run_defined p σ Hp) as [σ' E].
  exists σ'. split; [ exact E | ].
  pose proof (run_evolves p σ σ' E) as Hev. split.
  - intros r a Hr. specialize (Hev r). rewrite Hr in Hev.
    inversion Hev as [? a' Haa' | ]; subst.
    exists a'. split; [ reflexivity | ]. apply HP. exact Haa'.
  - intros r Hr. specialize (Hev r). rewrite Hr in Hev.
    inversion Hev. reflexivity.
Qed.

(** ** interestRate within [0, 50] *)

(** C4, as stated, fails at construction: the constructor stores the rate it
    is given, here 75, which is not within [0, 50]. *)
Lemma constructor_rate_out_of_range :
  let a := fst (BankAccount_new "ACC001" "John Doe" 5000 "Savings" 75) in
  ~ rate_in_range (interestRate a).
Proof.
  intros a [_ H]. vm_compute in H. discriminate.
Qed.

(** C4, amended. The constructor takes the rate as it is given, and every
    operation keeps a rate within [0, 50] there. Account by account: every
    sequence of calls runs to its end, and each account that was constructed
    with a rate within [0, 50] has its [interestRate] within [0, 50]
    afterwards, whatever the rates the other accounts of the program were
    constructed with; the accounts afterwards are the constructed ones. A
    successful [setInterestRate] brings the rate into [0, 50] whatever it
    was before. *)
Theorem interestRate_stays_in_range (l : list ctor_args)
    (p : list (ref * invocation)) :
  well_referenced p (constructed l) ->
  (exists σ', run p (constructed l) = Some σ' /\
     (forall r a, constructed l !! r = Some a ->
        exists a', σ' !! r = Some a' /\
          (rate_in_range (interestRate a) -> rate_in_range (interestRate a'))) /\
     (forall r, constructed l !! r = None -> σ' !! r = None)) /\
  (forall rate a,
     returned (setInterestRate rate a) = true ->
     rate_in_range (interestRate (after (setInterestRate rate a)))).
Proof.
  intros Hp. split.
  - apply run_preserves with (P := fun a => rate_in_range (interestRate a));
      [ | exact Hp ].
    intros a a'. apply evolves_rate_in_range.
  - intros rate a R.
    destruct (setInterestRate_cases rate a) as [(C & _ & -> & _) | (_ & R' & _)];
      [ | congruence ].
    simpl. apply andb_true_iff. exact C.
Qed.

Lemma main_well_referenced : well_referenced main_calls main_store.
Proof.
  repeat constructor; eexists; vm_compute; reflexivity.
Defined.

(** An account constructed with rate 3.5 beside one constructed with rate 75:
    after a transfer to the latter and interest on it, the rate of the former
    is within [0, 50]. *)
Lemma interestRate_stays_in_range_witness :
  well_referenced [(1, Transfer 2 500); (2, ApplyInterest)]
    (constructed [account1_args; mkArgs "ACC003" "Ann Lee" 100 "Savings" 75]) /\
  exists σ' a',
    run [(1, Transfer 2 500); (2, ApplyInterest)]
      (constructed [account1_args; mkArgs "ACC003" "Ann Lee" 100 "Savings" 75])
      = Some σ' /\
    σ' !! 1 = Some a' /\ rate_in_range (interestRate a').
Proof.
  assert (W : well_referenced [(1, Transfer 2 500); (2, ApplyInterest)]
                (constructed [account1_args;
                              mkArgs "ACC003" "Ann Lee" 100 "Savings" 75])).
  { repeat constructor; eexists; vm_compute; reflexivity. }
  split; [ exact W | ].
  destruct (proj1 (interestRate_stays_in_range _ _ W)) as (σ' & E & K & _).
  destruct (K 1 account1 eq_refl) as (a' & Ha' & R).
  exists σ', a'. split; [ exact E | ]. split; [ exact Ha' | ].
  apply R. split; reflexivity.
Defined.

(** ** accountHolder *)

(** C8, as stated, fails on an account constructed with an empty name: the
    deposit succeeds, the balance changes, and the holder name is empty
    afterwards. *)
Lemma empty_holder_after_successful_deposit :
  let a := fst (BankAccount_new "ACC003" "" 100 "Savings" 1) in
  returned (deposit 50 a) = true /\
  balance (after (deposit 50 a)) = 150%float /\
  accountHolder (after (deposit 50 a)) = "".
Proof. repeat split; reflexivity. Qed.

(** C8, amended. [setAccountHolder(name)] returns [true] and stores [name]
    exactly when [name] is not empty; otherwise it returns [false], prints the
    invalid-name line and changes nothing. So the holder name is not empty
    after any successful [setAccountHolder]; no other operation assigns it,
    and it stays non-empty through every further sequence of calls. The
    constructor stores the name it is given. Account by account: every
    sequence of calls runs to its end, and each account that was constructed
    with a non-empty name has a non-empty holder name afterwards, whatever
    the names the other accounts of the program were constructed with; the
    accounts afterwards are the constructed ones. *)
Theorem accountHolder_spec :
  (forall newHolder a,
     let r := setAccountHolder newHolder a in
     (returned r = true <-> newHolder <> "") /\
     (returned r = true ->
        after r = set_accountHolder a newHolder /\
        accountHolder (after r) = newHolder /\
        accountHolder (after r) <> "") /\
     (returned r = false ->
        after r = a /\ signalled (printed r) = Some InvalidHolderName)) /\
  (forall this newHolder (σ σ1 : store) out p,
     invoke this (SetAccountHolder newHolder) σ = Some (VBool true, σ1, out) ->
     well_referenced p σ1 ->
     exists σ' a', run p σ1 = Some σ' /\ σ' !! this = Some a' /\
                   accountHolder a' <> "") /\
  (forall l p,
     well_referenced p (constructed l) ->
     exists σ', run p (constructed l) = Some σ' /\
       (forall r a, constructed l !! r = Some a ->
          exists a', σ' !! r = Some a' /\
            (accountHolder a <> "" -> accountHolder a' <> "")) /\
       (forall r, constructed l !! r = None -> σ' !! r = None)).
Proof.
  split; [ | split ].
  - intros newHolder a r. subst r.
    destruct (setAccountHolder_cases newHolder a)
      as [(E & R & A & S) | (E & R & A & S)]; rewrite R, A, S.
    + repeat split; try discriminate; try reflexivity. intros H; contradiction.
    + repeat split; try discriminate; try reflexivity; auto.
  - intros this newHolder σ σ1 out p H Hp. simpl in H. unfold with_value in H.
    destruct (call (setAccountHolder newHolder) this σ) as [[[v s] o]|] eqn:E;
      [ | discriminate ].
    inversion H; subst. apply call_inv in E.
    destruct E as (a & Ha & R & -> & _).
    destruct (setAccountHolder_cases newHolder a) as [(_ & R' & _) | (Hne & _ & A & _)];
      [ congruence | ].
    destruct (run_defined p _ Hp) as [σ' E]. pose proof (run_evolves _ _ _ E this) as Hev.
    rewrite lookup_insert_eq in Hev. inversion Hev as [? a' Haa' | ]; subst.
    exists σ', a'. split; [ exact E | ]. split; [ symmetry; assumption | ].
    eapply evolves_holder_nonempty; [ exact Haa' | ]. rewrite A. exact Hne.
  - intros l p Hp.
    apply run_preserves with (P := fun a => accountHolder a <> "");
      [ | exact Hp ].
    intros a a'. apply evolves_holder_nonempty.
Qed.

(** The setter on [account1]; and an account constructed with a name beside
    one constructed with the empty name: after a deposit on the latter and a
    transfer to it, the holder name of the former is not empty. *)
Lemma accountHolder_spec_witness :
  (returned (setAccountHolder "John Smith" account1) = true <-> "John Smith" <> "") /\
  well_referenced [(2, Deposit 50); (1, Transfer 2 500)]
    (constructed [account1_args; mkArgs "ACC003" "" 100 "Savings" 1]) /\
  exists σ' a',
    run [(2, Deposit 50); (1, Transfer 2 500)]
      (constructed [account1_args; mkArgs "ACC003" "" 100 "Savings" 1])
      = Some σ' /\
    σ' !! 1 = Some a' /\ accountHolder a' <> "".
Proof.
  destruct accountHolder_spec as (S & _ & I).
  split; [ exact (proj1 (S "John Smith" account1)) | ].
  assert (W : well_referenced [(2, Deposit 50); (1, Transfer 2 500)]
                (constructed [account1_args;
                              mkArgs "ACC003" "" 100 "Savings" 1])).
  { repeat constructor; eexists; vm_compute; reflexivity. }
  split; [ exact W | ].
  destruct (I _ _ W) as (σ' & E & K & _).
  destruct (K 1 account1 eq_refl) as (a' & Ha' & H).
  exists σ', a'. split; [ exact E | ]. split; [ exact Ha' | ].
  apply H. discriminate.
Defined.

(** ** Frame *)

Lemma set_balance_id (a : BankAccount) : set_balance a (balance a) = a.
Proof. destruct a; reflexivity. Qed.

Lemma set_interestRate_id (a : BankAccount) : set_interestRate a (interestRate a) = a.
Proof. destruct a; reflexivity. Qed.

Lemma set_accountHolder_id (a : BankAccount) : set_accountHolder a (accountHolder a) = a.
Proof. destruct a; reflexivity. Qed.

Lemma deposit_only_balance (amount : double) (a : BankAccount) :
  after (deposit amount a) = set_balance a (balance (after (deposit amount a))).
Proof.
  destruct (deposit_cases amount a) as [(_ & _ & -> & _) | (_ & _ & -> & _)];
    [ symmetry; apply set_balance_id | reflexivity ].
Qed.

Lemma withdraw_only_balance (amount : double) (a : BankAccount) :
  after (withdraw amount a) = set_balance a (balance (after (withdraw amount a))).
Proof.
  destruct (withdraw_cases amount a)
    as [(_ & _ & -> & _) | [(_ & _ & _ & -> & _) | (_ & _ & _ & -> & _)]];
    try (symmetry; apply set_balance_id); reflexivity.
Qed.

Lemma applyInterest_only_balance (a : BankAccount) :
  after (applyInterest a) = set_balance a (balance (after (applyInterest a))).
Proof. reflexivity. Qed.

Lemma setInterestRate_only_rate (rate : double) (a : BankAccount) :
  after (setInterestRate rate a)
    = set_interestRate a (interestRate (after (setInterestRate rate a))).
Proof.
  destruct (setInterestRate_cases rate a) as [(_ & _ & -> & _) | (_ & _ & -> & _)];
    [ reflexivity | symmetry; apply set_interestRate_id ].
Qed.

Lemma setAccountHolder_only_holder (newHolder : string) (a : BankAccount) :
  after (setAccountHolder newHolder a)
    = set_accountHolder a (accountHolder (after (setAccountHolder newHolder a))).
Proof.
  destruct (setAccountHolder_cases newHolder a) as [(_ & _ & -> & _) | (_ & _ & -> & _)];
    [ symmetry; apply set_accountHolder_id | reflexivity ].
Qed.

Lemma call_lookup {R : Type} (m : method R) (this : ref) (σ σ' : store) (v : R)
    (out : console) (r : ref) (a : BankAccount) :
  call m this σ = Some (v, σ', out) -> σ !! r = Some a ->
  exists a', σ' !! r = Some a' /\ (r <> this -> a' = a) /\ (r = this -> a' = after (m a)).
Proof.
  intros H Hr. apply call_inv in H. destruct H as (a0 & Ha0 & _ & -> & _).
  destruct (decide (this = r)) as [-> | Hne].
  - rewrite lookup_insert_eq. assert (a0 = a) by congruence. subst a0.
    eexists. split; [ reflexivity | ]. split; [ congruence | reflexivity ].
  - rewrite lookup_insert_ne by exact Hne. exists a.
    split; [ exact Hr | ]. split; [ reflexivity | congruence ].
Qed.

Lemma transfer_lookup (this toAccount : ref) (amount : double) (σ σ' : store)
    (v : bool) (out : console) (r : ref) (a : BankAccount) :
  transfer this toAccount amount σ = Some (v, σ', out) -> σ !! r = Some a ->
  exists a', σ' !! r = Some a' /\ a' = set_balance a (balance a') /\
             (r <> this -> r <> toAccount -> a' = a).
Proof.
  intros H Hr. destruct (transfer_inv _ _ _ _ _ _ _ H) as (a0 & b0 & Ha & Hb).
  destruct (transfer_cases this toAccount amount σ a0 b0 Ha Hb)
    as [(_ & o & E & _) | [(_ & _ & o & E & _) | (_ & _ & o & E & _)]];
    rewrite E in H; inversion H; subst;
    try (exists a; split; [ exact Hr | ]; split;
         [ symmetry; apply set_balance_id | reflexivity ]).
  unfold transferred.
  destruct (decide (toAccount = r)) as [-> | Hto].
  - rewrite lookup_insert_eq. eexists. split; [ reflexivity | ].
    split; [ | congruence ].
    destruct (decide (this = r)) as [-> | Hne].
    + assert (a0 = a) by congruence. subst. reflexivity.
    + assert (b0 = a) by congruence. subst. reflexivity.
  - rewrite lookup_insert_ne by exact Hto.
    destruct (decide (this = r)) as [-> | Hne].
    + rewrite lookup_insert_eq. assert (a0 = a) by congruence. subst.
      eexists. split; [ reflexivity | ]. split; [ reflexivity | congruence ].
    + rewrite lookup_insert_ne by exact Hne. exists a. split; [ exact Hr | ].
      split; [ symmetry; apply set_balance_id | reflexivity ].
Qed.

(** Closes the field equalities left once the object after the call is known. *)
Ltac frame_done :=
  simpl; repeat split; try reflexivity; intros; try contradiction; try congruence.

(** C9. Every call leaves [accountNumber] and [accountType] of every object as
    they were, creates and destroys no object, and touches only what its
    contract names: [deposit], [withdraw] and [applyInterest] only the balance
    of the object called; [transfer] only the balances of the object called
    and of the destination; [setInterestRate] only the rate of the object
    called; [setAccountHolder] only the holder name of the object called. *)
Theorem frame (this : ref) (i : invocation) (σ : store) :
  Forall (fun r => is_Some (σ !! r)) (refs_of (this, i)) ->
  exists v σ' out,
    invoke this i σ = Some (v, σ', out) /\
    (forall r, σ !! r = None -> σ' !! r = None) /\
    forall r a, σ !! r = Some a ->
      exists a', σ' !! r = Some a' /\
        accountNumber a' = accountNumber a /\
        accountType a' = accountType a /\
        match i with
        | Deposit _ | Withdraw _ | ApplyInterest =>
            accountHolder a' = accountHolder a /\
            interestRate a' = interestRate a /\
            (r <> this -> a' = a)
        | Transfer toAccount _ =>
            accountHolder a' = accountHolder a /\
            interestRate a' = interestRate a /\
            (r <> this -> r <> toAccount -> a' = a)
        | SetInterestRate _ =>
            accountHolder a' = accountHolder a /\
            balance a' = balance a /\
            (r <> this -> a' = a)
        | SetAccountHolder _ =>
            balance a' = balance a /\
            interestRate a' = interestRate a /\
            (r <> this -> a' = a)
        end.
Proof.
  intros Hrefs. destruct (invoke_defined this i σ Hrefs) as [[[v σ'] out] E].
  exists v, σ', out. split; [ exact E | ].
  pose proof (invoke_evolves _ _ _ _ _ _ E) as Hev. split.
  { intros r Hr. specialize (Hev r). rewrite Hr in Hev. inversion Hev. reflexivity. }
  intros r a Hr.
  assert (Hfix : forall a', σ' !! r = Some a' ->
            accountNumber a' = accountNumber a /\ accountType a' = accountType a).
  { intros a' Hr'. specialize (Hev r). rewrite Hr, Hr' in Hev.
    inversion Hev; subst.
    split; [ apply evolves_accountNumber | apply evolves_accountType ]; assumption. }
  destruct i; simpl in E; unfold with_value in E.
  - destruct (call (deposit amount) this σ) as [[[b s] o]|] eqn:C; [ | discriminate ].
    inversion E; subst.
    destruct (call_lookup _ _ _ _ _ _ r a C Hr) as (a' & Hr' & Hne & Heq).
    exists a'. destruct (Hfix a' Hr') as [F1 F2].
    repeat (split; [ assumption | ]).
    destruct (decide (r = this)) as [e | n];
      [ rewrite (Heq e), deposit_only_balance | rewrite (Hne n) ]; frame_done.
  - destruct (call (withdraw amount) this σ) as [[[b s] o]|] eqn:C; [ | discriminate ].
    inversion E; subst.
    destruct (call_lookup _ _ _ _ _ _ r a C Hr) as (a' & Hr' & Hne & Heq).
    exists a'. destruct (Hfix a' Hr') as [F1 F2].
    repeat (split; [ assumption | ]).
    destruct (decide (r = this)) as [e | n];
      [ rewrite (Heq e), withdraw_only_balance | rewrite (Hne n) ]; frame_done.
  - destruct (transfer this toAccount amount σ) as [[[b s] o]|] eqn:C; [ | discriminate ].
    inversion E; subst.
    destruct (transfer_lookup _ _ _ _ _ _ _ r a C Hr) as (a' & Hr' & Hbal & Hne).
    exists a'. destruct (Hfix a' Hr') as [F1 F2].
    repeat (split; [ assumption | ]).
    split; [ rewrite Hbal; reflexivity | ].
    split; [ rewrite Hbal; reflexivity | exact Hne ].
  - destruct (call (setInterestRate rate) this σ) as [[[b s] o]|] eqn:C; [ | discriminate ].
    inversion E; subst.
    destruct (call_lookup _ _ _ _ _ _ r a C Hr) as (a' & Hr' & Hne & Heq).
    exists a'. destruct (Hfix a' Hr') as [F1 F2].
    repeat (split; [ assumption | ]).
    destruct (decide (r = this)) as [e | n];
      [ rewrite (Heq e), setInterestRate_only_rate | rewrite (Hne n) ]; frame_done.
  - destruct (call (setAccountHolder newHolder) this σ) as [[[b s] o]|] eqn:C;
      [ | discriminate ].
    inversion E; subst.
    destruct (call_lookup _ _ _ _ _ _ r a C Hr) as (a' & Hr' & Hne & Heq).
    exists a'. destruct (Hfix a' Hr') as [F1 F2].
    repeat (split; [ assumption | ]).
    destruct (decide (r = this)) as [e | n];
      [ rewrite (Heq e), setAccountHolder_only_holder | rewrite (Hne n) ]; frame_done.
  - destruct (call applyInterest this σ) as [[[b s] o]|] eqn:C; [ | discriminate ].
    inversion E; subst.
    destruct (call_lookup _ _ _ _ _ _ r a C Hr) as (a' & Hr' & Hne & Heq).
    exists a'. destruct (Hfix a' Hr') as [F1 F2].
    repeat (split; [ assumption | ]).
    destruct (decide (r = this)) as [e | n];
      [ rewrite (Heq e), applyInterest_only_balance | rewrite (Hne n) ]; frame_done.
Qed.

Lemma frame_witness :
  Forall (fun r => is_Some (main_store !! r)) (refs_of (1, Transfer 2 500)) /\
  exists v σ' out,
    invoke 1 (Transfer 2 500) main_store = Some (v, σ', out) /\
    (forall r, main_store !! r = None -> σ' !! r = None) /\
    forall r a, main_store !! r = Some a ->
      exists a', σ' !! r = Some a' /\
        accountNumber a' = accountNumber a /\
        accountType a' = accountType a /\
        accountHolder a' = accountHolder a /\
        interestRate a' = interestRate a /\
        (r <> 1 -> r <> 2 -> a' = a).
Proof.
  assert (H : Forall (fun r => is_Some (main_store !! r)) (refs_of (1, Transfer 2 500))).
  { repeat constructor; eexists; vm_compute; reflexivity. }
  split; [ exact H | ].
  exact (frame 1 (Transfer 2 500) main_store H).
Defined.

(** ** applyInterest on a balance and a rate that are not negative *)

Import RoundingFacts.

(** The product of two finite doubles is defined: only [inf * 0] and NaN
    operands give NaN. *)
Lemma finite_product_defined (b r : double) :
  isfinite b = true -> isfinite r = true -> isnan (b * r)%float = false.
Proof.
  unfold isfinite. intros Hb Hr. rewrite isnan_false, mul_spec.
  destruct (Prim2SF b) as [sb | sb | | sb mb eb]; try discriminate;
    destruct (Prim2SF r) as [sr | sr | | sr mr er]; try discriminate;
    simpl; try discriminate.
  pose proof (binary_round_aux_sign (xorb sb sr) (Zpos (mb * mr)) (eb + er)
                loc_Exact ltac:(lia)) as H.
  intros E. unfold SF64mul in E. simpl in E. rewrite E in H. exact H.
Qed.

(** For operands that are [>= 0], the product is NaN exactly when one is
    infinite and the other zero. *)
Lemma product_nan_cases (b r : double) :
  ge b 0 = true -> ge r 0 = true ->
  isnan (b * r)%float
    = ((b =? infinity) && (r =? 0) || (b =? 0) && (r =? infinity))%float.
Proof.
  intros Hb Hr. rewrite ge_zero_spec in Hb, Hr.
  unfold isnan. rewrite !FloatAxioms.eqb_spec, mul_spec. unfold SFeqb.
  change (Prim2SF infinity) with (S754_infinity false).
  change (Prim2SF 0) with (S754_zero false).
  destruct (Prim2SF b) as [sb | [ | ] | | [ | ] mb eb]; try contradiction;
    destruct (Prim2SF r) as [sr | [ | ] | | [ | ] mr er]; try contradiction;
    try reflexivity.
  pose proof (binary_round_aux_sign false (Zpos (mb * mr)) (eb + er)
                loc_Exact ltac:(lia)) as H.
  unfold SF64mul. simpl SFmul.
  destruct (binary_round_aux prec emax false (Zpos (mb * mr)) (eb + er) loc_Exact)
    as [s | s | | s m e] eqn:E; try contradiction;
    rewrite SFcompare_refl by discriminate; reflexivity.
Qed.

(** When the product is NaN, so is the balance after [applyInterest]. *)
Lemma applyInterest_nan_product (a : BankAccount) :
  isnan (balance a * interestRate a)%float = true ->
  isnan (balance (after (applyInterest a))) = true.
Proof.
  intros H. apply isnan_spec in H. apply isnan_spec.
  change (balance (after (applyInterest a)))
    with (balance a + balance a * interestRate a / 100)%float.
  rewrite add_spec, div_spec, H.
  unfold SF64add, SF64div. simpl.
  destruct (Prim2SF (balance a)); reflexivity.
Qed.

(** C10, as stated, fails on an infinite balance with rate 0. Both are
    [>= 0]; the interest is [inf * 0 / 100], which is NaN, and so is the new
    balance: it is neither [>=] the old balance nor [>= 0]. *)
Lemma applyInterest_infinite_balance :
  let a := mkBankAccount "ACC001" "John Doe" infinity "Savings" 0 in
  ge (balance a) 0 = true /\ ge (interestRate a) 0 = true /\
  isnan (balance (after (applyInterest a))) = true /\
  ge (balance (after (applyInterest a))) (balance a) = false /\
  ge (balance (after (applyInterest a))) 0 = false.
Proof. repeat split; reflexivity. Qed.

(** That state is reached from the first account of [main] by calls that all
    succeed: the rate 0 is accepted, and so is the deposit of infinity. *)
Lemma infinite_balance_reachable :
  exists σ a,
    run [(1, SetInterestRate 0); (1, Deposit infinity)] main_store = Some σ /\
    σ !! 1 = Some a /\
    balance a = infinity /\ interestRate a = 0%float.
Proof.
  eexists. eexists. split; [ vm_compute; reflexivity | ].
  split; [ vm_compute; reflexivity | ]. split; reflexivity.
Qed.

(** The closed form [balance * (1 + rate / 100)] is not what the code
    computes in doubles, already on 100 at 10%: the code leaves 110, the closed
    form evaluates to the next double above it. *)
Lemma applyInterest_closed_form_differs :
  let a := mkBankAccount "ACC001" "John Doe" 100 "Savings" 10 in
  balance (after (applyInterest a)) = 110%float /\
  (balance (after (applyInterest a))
     =? balance a * (1 + interestRate a / 100))%float = false /\
  (balance (after (applyInterest a))
     <? balance a * (1 + interestRate a / 100))%float = true.
Proof. repeat split; reflexivity. Qed.

(** Without the hypothesis on the rate the balance can go down: the
    constructor accepts a rate of -10, and 100 becomes 90. *)
Example applyInterest_negative_rate :
  let a := fst (BankAccount_new "ACC003" "Ann Lee" 100 "Savings" (-10)) in
  balance (after (applyInterest a)) = 90%float /\
  ge (balance (after (applyInterest a))) (balance a) = false.
Proof. split; reflexivity. Qed.

(** C10, amended. For every account with [balance >= 0] and
    [interestRate >= 0] whose product [balance * interestRate] is not NaN
    (it is NaN only when one of the two is infinite and the other zero; never
    when both are finite), [applyInterest()] does not decrease the balance:
    the new balance is the double [balance + balance * interestRate / 100],
    it is [>=] the old balance, and it is [>= 0]. *)
Theorem applyInterest_never_decreases (a : BankAccount) :
  ge (balance a) 0 = true ->
  ge (interestRate a) 0 = true ->
  isnan (balance a * interestRate a)%float = false ->
  balance (after (applyInterest a))
    = (balance a + balance a * interestRate a / 100)%float /\
  ge (balance (after (applyInterest a))) (balance a) = true /\
  ge (balance (after (applyInterest a))) 0 = true.
Proof.
  intros Hb Hr Hn. split; [ reflexivity | ].
  change (balance (after (applyInterest a)))
    with (balance a + balance a * interestRate a / 100)%float.
  apply interest_ge; assumption.
Qed.

Lemma applyInterest_never_decreases_witness :
  ge (balance account1) 0 = true /\
  ge (interestRate account1) 0 = true /\
  isnan (balance account1 * interestRate account1)%float = false /\
  balance (after (applyInterest account1)) = 5175%float /\
  ge (balance (after (applyInterest account1))) (balance account1) = true /\
  ge (balance (after (applyInterest account1))) 0 = true.
Proof.
  do 4 (split; [ reflexivity | ]).
  exact (proj2 (applyInterest_never_decreases account1 eq_refl eq_refl eq_refl)).
Defined.

(** Finite operands are the usual case. *)
Lemma applyInterest_finite_never_decreases (a : BankAccount) :
  isfinite (balance a) = true -> isfinite (interestRate a) = true ->
  ge (balance a) 0 = true -> ge (interestRate a) 0 = true ->
  ge (balance (after (applyInterest a))) (balance a) = true.
Proof.
  intros Fb Fr Hb Hr.
  change (balance (after (applyInterest a)))
    with (balance a + balance a * interestRate a / 100)%float.
  apply interest_ge; auto using finite_product_defined.
Qed.

(** ** The scenario of the specification *)

(** Account A starts at 5000 with rate 3.5 and B at 10000: deposit 2000,
    withdraw 3000, a refused withdrawal of 100000, interest, and a transfer of
    500 to B leave 3640 in A and 10500 in B. *)
Example end_to_end :
  exists σ a b,
    run [(1, Deposit 2000); (1, Withdraw 3000); (1, Withdraw 100000);
         (1, ApplyInterest); (1, Transfer 2 500)] main_store = Some σ /\
    σ !! 1 = Some a /\ σ !! 2 = Some b /\
    balance a = 3640%float /\ balance b = 10500%float.
Proof.
  eexists. eexists. eexists. split; [ vm_compute; reflexivity | ].
  split; [ vm_compute; reflexivity | ].
  split; [ vm_compute; reflexivity | ]. split; reflexivity.
Qed.

(** * More of the class *)

(** ** Order of doubles under subtraction and addition *)

(** The counterpart of [round_ge]: an exact value that is not above a double
    does not round above it. With it, a rounded difference [x - y] of positive
    doubles stays within [0, x], and a rounded sum [x + y] with [y > 0] is
    not below [x] whatever the sign of [x]. *)

Module OrderFacts.

Import DoubleFacts RoundingFacts.

Local Open Scope Z_scope.

(** After a right shift that drops only zero bits, nothing is remembered as
    lost. *)
Lemma shr_1_exact (mrs : shr_record) :
  0 <= shr_m mrs -> shr_m mrs mod 2 = 0 -> shr_r mrs = false -> shr_s mrs = false ->
  shr_r (shr_1 mrs) = false /\ shr_s (shr_1 mrs) = false.
Proof.
  destruct mrs as [m r s]. simpl. intros H M -> ->.
  destruct m as [ | [p | p | ] | p ]; simpl; auto; try lia.
  - rewrite Pos2Z.inj_xI in M. rewrite Z.add_comm, Z.mul_comm, Z.mod_add in M by lia.
    discriminate.
  - discriminate.
Qed.

Lemma iter_pos_shr_1_exact (n : positive) (mrs : shr_record) :
  0 <= shr_m mrs -> shr_m mrs mod 2 ^ Zpos n = 0 ->
  shr_r mrs = false -> shr_s mrs = false ->
  shr_r (SpecFloat.iter_pos shr_1 n mrs) = false /\
  shr_s (SpecFloat.iter_pos shr_1 n mrs) = false.
Proof.
  revert mrs. induction n as [n IH | n IH | ]; intros mrs H M R S;
    simpl SpecFloat.iter_pos.
  - assert (P : 0 < 2 ^ Zpos n) by (apply Z.pow_pos_nonneg; lia).
    replace (Zpos n~1) with (1 + (Zpos n + Zpos n)) in M by lia.
    rewrite (Z.pow_add_r 2 1), (Z.pow_add_r 2 (Zpos n)) in M by lia.
    change (2 ^ 1) with 2 in M.
    apply Z.mod_divide in M; [ | lia ]. destruct M as [q Hq].
    assert (M1 : shr_m mrs mod 2 = 0).
    { rewrite Hq. replace (q * (2 * (2 ^ Zpos n * 2 ^ Zpos n)))
        with (q * (2 ^ Zpos n * 2 ^ Zpos n) * 2) by lia. apply Z.mod_mul. lia. }
    destruct (shr_1_exact mrs H M1 R S) as [R1 S1].
    assert (E1 : shr_m (shr_1 mrs) = q * 2 ^ Zpos n * 2 ^ Zpos n).
    { rewrite shr_1_m by exact H. rewrite Hq.
      replace (q * (2 * (2 ^ Zpos n * 2 ^ Zpos n)))
        with (q * 2 ^ Zpos n * 2 ^ Zpos n * 2) by lia. apply Z.div_mul. lia. }
    assert (H1 : 0 <= shr_m (shr_1 mrs)) by (rewrite shr_1_m by exact H; apply Z.div_pos; lia).
    assert (M2 : shr_m (shr_1 mrs) mod 2 ^ Zpos n = 0) by (rewrite E1; apply Z.mod_mul; lia).
    destruct (IH (shr_1 mrs) H1 M2 R1 S1) as [R2 S2].
    assert (E2 : shr_m (SpecFloat.iter_pos shr_1 n (shr_1 mrs)) = q * 2 ^ Zpos n).
    { rewrite iter_pos_shr_1 by exact H1. rewrite E1. apply Z.div_mul. lia. }
    apply IH; try assumption.
    + rewrite E2. nia.
    + rewrite E2. apply Z.mod_mul. lia.
  - assert (P : 0 < 2 ^ Zpos n) by (apply Z.pow_pos_nonneg; lia).
    replace (Zpos n~0) with (Zpos n + Zpos n) in M by lia.
    rewrite (Z.pow_add_r 2 (Zpos n)) in M by lia.
    apply Z.mod_divide in M; [ | lia ]. destruct M as [q Hq].
    assert (M2 : shr_m mrs mod 2 ^ Zpos n = 0).
    { rewrite Hq. replace (q * (2 ^ Zpos n * 2 ^ Zpos n))
        with (q * 2 ^ Zpos n * 2 ^ Zpos n) by lia. apply Z.mod_mul. lia. }
    destruct (IH mrs H M2 R S) as [R2 S2].
    assert (E2 : shr_m (SpecFloat.iter_pos shr_1 n mrs) = q * 2 ^ Zpos n).
    { rewrite iter_pos_shr_1 by exact H. rewrite Hq.
      replace (q * (2 ^ Zpos n * 2 ^ Zpos n))
        with (q * 2 ^ Zpos n * 2 ^ Zpos n) by lia. apply Z.div_mul. lia. }
    apply IH; try assumption.
    + rewrite E2. nia.
    + rewrite E2. apply Z.mod_mul. lia.
  - apply shr_1_exact; assumption.
Qed.

Lemma shr_exact (m e n : Z) :
  0 <= m -> m mod 2 ^ Z.max n 0 = 0 ->
  loc_of_shr_record (fst (shr (shr_record_of_loc m loc_Exact) e n)) = loc_Exact.
Proof.
  intros H M. destruct n as [ | n | n ]; simpl; try reflexivity.
  simpl in M.
  destruct (iter_pos_shr_1_exact n (Build_shr_record m false false) H M eq_refl eq_refl)
    as [R S].
  destruct (SpecFloat.iter_pos shr_1 n _) as [m' r' s']. simpl in *. subst. reflexivity.
Qed.

(** [binary_round_aux] on an exact input whose first shift drops only zero
    bits: no rounding takes place. *)
Lemma binary_round_aux_spec_exact (s : bool) (m e : Z) :
  0 <= m ->
  exists m2 : Z,
    let n1 := fexp prec emax (Zdigits2 m + e) - e in
    let m1 := m / 2 ^ Z.max n1 0 in
    let e1 := e + Z.max n1 0 in
    let n2 := fexp prec emax (Zdigits2 m2 + e1) - e1 in
    let m3 := m2 / 2 ^ Z.max n2 0 in
    let e3 := e1 + Z.max n2 0 in
    m1 <= m2 <= m1 + 1 /\
    (m mod 2 ^ Z.max n1 0 = 0 -> m2 = m1) /\
    binary_round_aux prec emax s m e loc_Exact =
      match m3 with
      | Z0 => S754_zero s
      | Zpos p => if e3 <=? emax - prec then S754_finite s p e3 else S754_infinity s
      | Zneg _ => S754_nan
      end.
Proof.
  intros Hm. unfold binary_round_aux, shr_fexp.
  pose proof (shr_spec (shr_record_of_loc m loc_Exact) e
                (fexp prec emax (Zdigits2 m + e) - e)) as H1.
  pose proof (shr_exact m e (fexp prec emax (Zdigits2 m + e) - e) Hm) as Hx.
  rewrite shr_record_of_loc_m in H1. specialize (H1 Hm).
  destruct (shr (shr_record_of_loc m loc_Exact) e (fexp prec emax (Zdigits2 m + e) - e))
    as [mrs1 e1].
  simpl in H1, Hx. destruct H1 as [Hm1 He1].
  pose proof (round_nearest_even_bounds (shr_m mrs1) (loc_of_shr_record mrs1)) as Hr.
  assert (Hx' : m mod 2 ^ Z.max (fexp prec emax (Zdigits2 m + e) - e) 0 = 0 ->
                round_nearest_even (shr_m mrs1) (loc_of_shr_record mrs1) = shr_m mrs1).
  { intros M. rewrite (Hx M). reflexivity. }
  set (m2 := round_nearest_even (shr_m mrs1) (loc_of_shr_record mrs1)) in *.
  assert (Hm1' : 0 <= shr_m mrs1) by (rewrite Hm1; apply Z.div_pos; lia).
  pose proof (shr_spec (shr_record_of_loc m2 loc_Exact) e1
                (fexp prec emax (Zdigits2 m2 + e1) - e1)) as H2.
  rewrite shr_record_of_loc_m in H2.
  assert (Hm2 : 0 <= m2) by lia. specialize (H2 Hm2).
  destruct (shr (shr_record_of_loc m2 loc_Exact) e1
              (fexp prec emax (Zdigits2 m2 + e1) - e1)) as [mrs3 e3].
  simpl in H2. destruct H2 as [Hm3 He3].
  exists m2. cbv zeta. rewrite <- He1, <- Hm1. split; [ exact Hr | ].
  split; [ exact Hx' | ].
  rewrite <- Hm3, <- He3. reflexivity.
Qed.

Lemma digits_upper (m : positive) (d : Z) : Zpos m < 2 ^ d -> 0 <= d -> Zpos (digits2_pos m) <= d.
Proof.
  intros H Hd. pose proof (digits2_pos_bounds m) as [L _].
  assert (2 ^ (Zpos (digits2_pos m) - 1) < 2 ^ d) by lia.
  apply Z.pow_lt_mono_r_iff in H0; lia.
Qed.

(** Rounding a positive exact value that is not above a double does not go
    above it. The input exponent is not above the one the format gives the
    value, as after [shl_align]. *)
Lemma round_le (s : bool) (mb : positive) (eb : Z) (mz : positive) (ez : Z) :
  bounded prec emax mb eb = true ->
  -1074 <= ez ->
  ez <= fexp prec emax (Zpos (digits2_pos mz) + ez) ->
  Zpos mz * 2 ^ (ez + 1074) <= Zpos mb * 2 ^ (eb + 1074) ->
  mag_le (binary_round_aux prec emax s (Zpos mz) ez loc_Exact) mb eb /\
  has_sign s (binary_round_aux prec emax s (Zpos mz) ez loc_Exact).
Proof.
  intros Hb Hez Hcan Hval. split; [ | apply binary_round_aux_sign; lia ].
  destruct (bounded_spec _ _ Hb) as [Heb Hmax].
  destruct (binary_round_aux_spec_exact s (Zpos mz) ez ltac:(lia)) as (m2 & Hr & Hx & ->).
  cbv zeta in Hr, Hx |- *. rewrite !fexp_eq in *. simpl Zdigits2 in *.
  pose proof (digits2_pos_bounds mz) as Hdz.
  pose proof (digits2_pos_bounds mb) as Hdb.
  pose proof (digits_le mz (ez + 1074) mb (eb + 1074) ltac:(lia) ltac:(lia) Hval) as Hd.
  remember (Zpos (digits2_pos mz)) as d eqn:Dd.
  remember (Zpos (digits2_pos mb)) as db eqn:Ddb.
  remember (Z.max (Z.max (d + ez - 53) (-1074) - ez) 0) as k1 eqn:Dk1.
  remember (Zpos mz / 2 ^ k1) as m1 eqn:Dm1.
  remember (ez + k1) as e1 eqn:De1.
  assert (Hd0 : 0 < d) by lia.
  assert (Hdb0 : 0 < db) by lia.
  assert (Hk1 : 0 <= k1) by lia.
  assert (He1 : e1 = Z.max (d + ez - 53) (-1074)) by lia.
  assert (He1b : e1 <= eb) by lia.
  assert (P1 : 0 < 2 ^ k1) by (apply Z.pow_pos_nonneg; lia).
  assert (U53 : 2 ^ 53 = 9007199254740992) by reflexivity.
  assert (Hm1 : 0 <= m1 < 9007199254740992).
  { rewrite <- U53, Dm1. split; [ apply Z.div_pos; lia | ].
    apply Z.div_lt_upper_bound; [ exact P1 | ].
    rewrite <- Z.pow_add_r by lia.
    apply Z.lt_le_trans with (2 ^ d); [ lia | ].
    apply Z.pow_le_mono_r; lia. }
  assert (Hm1b : e1 = eb -> m1 <= Zpos mb /\ (m1 = Zpos mb -> m2 = m1)).
  { intros E.
    assert (L : Zpos mz <= Zpos mb * 2 ^ k1).
    { replace (eb + 1074) with (k1 + (ez + 1074)) in Hval by lia.
      rewrite (Z.pow_add_r 2 k1 (ez + 1074)) in Hval by lia.
      assert (P0 : 0 < 2 ^ (ez + 1074)) by (apply Z.pow_pos_nonneg; lia).
      apply Z.mul_le_mono_pos_r with (p := 2 ^ (ez + 1074)); [ exact P0 | lia ]. }
    pose proof (Z.mul_div_le (Zpos mz) (2 ^ k1) P1) as Hle.
    pose proof (Z_div_mod_eq_full (Zpos mz) (2 ^ k1)) as Hdm.
    pose proof (Z.mod_pos_bound (Zpos mz) (2 ^ k1) P1) as Hmod.
    rewrite <- Dm1 in Hdm, Hle.
    split.
    - apply Z.lt_succ_r. rewrite Dm1.
      apply Z.div_lt_upper_bound; [ exact P1 | ]. lia.
    - intros E1. apply Hx. rewrite E1 in Hdm. lia. }
  clear Hx Hval Dm1 Hdz.
  destruct m2 as [ | p2 | p2 ]; [ simpl; exact I | | lia ].
  simpl Zdigits2. pose proof (digits2_pos_bounds p2) as Hd2.
  remember (Zpos (digits2_pos p2)) as d2 eqn:Dd2.
  remember (Z.max (Z.max (d2 + e1 - 53) (-1074) - e1) 0) as k2 eqn:Dk2.
  assert (Hd2' : d2 <= 54).
  { rewrite Dd2. apply digits_upper; [ | lia ].
    change (2 ^ 54) with 18014398509481984. lia. }
  destruct (Z.eq_dec (Zpos p2) 9007199254740992) as [Ecarry | Ncarry].
  - (* the rounding carried into a 54th bit *)
    assert (d2 = 54).
    { assert (H : 2 ^ 53 < 2 ^ d2) by (rewrite U53; lia).
      apply Z.pow_lt_mono_r_iff in H; lia. }
    assert (K : k2 = 1) by lia. rewrite K, Ecarry.
    change (9007199254740992 / 2 ^ 1) with (Zpos 4503599627370496).
    assert (Hlt : e1 < eb).
    { destruct (Z.eq_dec e1 eb) as [E | N]; [ | lia ].
      destruct (Hm1b E) as [L X].
      assert (db <= 53) by lia.
      assert (Zpos mb < 9007199254740992).
      { rewrite <- U53.
        apply Z.lt_le_trans with (2 ^ db); [ lia | apply Z.pow_le_mono_r; lia ]. }
      assert (C : m1 = Zpos mb) by lia. specialize (X C). lia. }
    assert (F : (e1 + 1 <=? emax - prec) = true)
      by (apply Z.leb_le; change (emax - prec) with 971; lia).
    rewrite F. simpl.
    destruct (Z.eq_dec (e1 + 1) eb) as [E | N]; [ right | left; lia ].
    split; [ exact E | ].
    assert (D53 : db = 53) by lia. rewrite D53 in Hdb.
    change (2 ^ (53 - 1)) with 4503599627370496 in Hdb. lia.
  - assert (Zpos p2 < 2 ^ 53) by (rewrite U53; lia).
    assert (d2 <= 53) by (rewrite Dd2; apply digits_upper; lia).
    assert (K : k2 = 0) by lia. rewrite K. rewrite Z.div_1_r, Z.add_0_r.
    assert (F : (e1 <=? emax - prec) = true)
      by (apply Z.leb_le; change (emax - prec) with 971; lia).
    rewrite F. simpl.
    destruct (Z.eq_dec e1 eb) as [E | N]; [ right | left; lia ].
    split; [ exact E | ].
    destruct (Hm1b E) as [L X].
    assert (C : m1 < Zpos mb \/ m1 = Zpos mb) by lia.
    destruct C as [C | C]; [ lia | ]. specialize (X C). lia.
Qed.

Lemma gt_zero_spec (x : double) : gt x 0 = true <-> positive_float (Prim2SF x).
Proof.
  unfold gt. rewrite FloatAxioms.ltb_spec. unfold SFltb.
  change (Prim2SF 0) with (S754_zero false).
  destruct (Prim2SF x) as [s | [ | ] | | [ | ] m e]; simpl; split; intros H;
    try reflexivity; try discriminate; try contradiction; auto.
Qed.

Lemma positive_nonneg (x : spec_float) : positive_float x -> nonneg x.
Proof. destruct x as [s | [ | ] | | [ | ] m e]; simpl; auto. Qed.

(** On doubles, the order of [SFcompare] is the order of the values. *)
Lemma SFleb_value (m1 : positive) (e1 : Z) (m2 : positive) (e2 : Z) :
  bounded prec emax m1 e1 = true -> bounded prec emax m2 e2 = true ->
  SFleb (S754_finite false m1 e1) (S754_finite false m2 e2) = true ->
  Zpos m1 * 2 ^ (e1 + 1074) <= Zpos m2 * 2 ^ (e2 + 1074).
Proof.
  intros B1 B2. destruct (bounded_spec _ _ B1) as [H1 _].
  destruct (bounded_spec _ _ B2) as [H2 _].
  pose proof (digits2_pos_bounds m1) as D1. pose proof (digits2_pos_bounds m2) as D2.
  unfold SFleb. simpl.
  destruct (Z.compare_spec e1 e2) as [E | L | G]; try discriminate.
  - subst e2. change (Pos.compare_cont Eq m1 m2) with (m1 ?= m2)%positive.
    destruct (Pos.compare_spec m1 m2); try discriminate; intros _.
    + subst. lia.
    + apply Z.mul_le_mono_nonneg_r; [ apply Z.pow_nonneg; lia | lia ].
  - intros _.
    assert (Zpos (digits2_pos m1) <= 53) by lia.
    assert (D53 : Zpos (digits2_pos m2) = 53) by lia.
    assert (U : Zpos m1 < 9007199254740992).
    { change 9007199254740992 with (2 ^ 53).
      apply Z.lt_le_trans with (2 ^ Zpos (digits2_pos m1)); [ lia | ].
      apply Z.pow_le_mono_r; lia. }
    assert (V : 4503599627370496 <= Zpos m2).
    { rewrite D53 in D2. exact (proj1 D2). }
    clear D1 D2.
    assert (P1 : 0 < 2 ^ (e1 + 1074)) by (apply Z.pow_pos_nonneg; lia).
    assert (P2 : 1 <= 2 ^ (e2 - e1 - 1)).
    { change 1 with (2 ^ 0). apply Z.pow_le_mono_r; lia. }
    replace (e2 + 1074) with ((e2 - e1 - 1) + (1 + (e1 + 1074))) by lia.
    rewrite (Z.pow_add_r 2 (e2 - e1 - 1) (1 + (e1 + 1074))),
      (Z.pow_add_r 2 1 (e1 + 1074)) by lia.
    change (2 ^ 1) with 2.
    remember (2 ^ (e1 + 1074)) as P eqn:DP.
    remember (2 ^ (e2 - e1 - 1)) as A eqn:DA.
    assert (S1 : Zpos m1 * P <= 2 * 4503599627370496 * P) by nia.
    assert (S2 : 2 * 4503599627370496 * P <= 2 * Zpos m2 * P) by nia.
    assert (S3 : 2 * Zpos m2 * P <= Zpos m2 * (A * (2 * P))) by nia.
    lia.
Qed.

Lemma mag_le_SFleb_pos (x : spec_float) (mb : positive) (eb : Z) :
  mag_le x mb eb -> has_sign false x ->
  SFleb x (S754_finite false mb eb) = true /\ nonneg x.
Proof.
  destruct x as [s | s | | s m e]; simpl; try contradiction.
  - intros _ ->. split; auto.
  - intros H ->. split; auto. unfold SFleb. simpl.
    destruct (Z.compare_spec e eb); try lia; try reflexivity.
    change (Pos.compare_cont Eq m mb) with (m ?= mb)%positive.
    destruct (Pos.compare_spec m mb); try reflexivity; lia.
Qed.

Lemma mag_le_SFleb_neg (x : spec_float) (mb : positive) (eb : Z) :
  mag_le x mb eb -> has_sign true x ->
  SFleb (S754_finite true mb eb) x = true.
Proof.
  destruct x as [s | s | | s m e]; simpl; try contradiction.
  - intros _ ->. reflexivity.
  - intros H ->. unfold SFleb. simpl.
    destruct (Z.compare_spec eb e); try lia; try reflexivity.
    change (Pos.compare_cont Eq mb m) with (mb ?= m)%positive.
    destruct (Pos.compare_spec mb m); try reflexivity; lia.
Qed.

(** The exact difference or sum handed to the rounding, after alignment. *)
Lemma binary_round_le (s : bool) (mb : positive) (eb : Z) (M : positive) (ez : Z) :
  bounded prec emax mb eb = true ->
  -1074 <= ez ->
  Zpos M * 2 ^ (ez + 1074) <= Zpos mb * 2 ^ (eb + 1074) ->
  mag_le (binary_round prec emax s M ez) mb eb /\
  has_sign s (binary_round prec emax s M ez).
Proof.
  intros Hb Hez Hval. unfold binary_round.
  destruct (shl_align_spec M ez (fexp prec emax (Zpos (digits2_pos M) + ez)))
    as [He' Hm'].
  destruct (shl_align M ez (fexp prec emax (Zpos (digits2_pos M) + ez))) as [mz ez'].
  simpl in He', Hm'. rewrite <- He' in Hm'. rewrite fexp_eq in He'.
  assert (P : 0 < 2 ^ (ez' + 1074)) by (apply Z.pow_pos_nonneg; lia).
  assert (V : Zpos mz * 2 ^ (ez' + 1074) = Zpos M * 2 ^ (ez + 1074)).
  { rewrite Hm'. replace (ez + 1074) with ((ez - ez') + (ez' + 1074)) by lia.
    rewrite (Z.pow_add_r 2 (ez - ez') (ez' + 1074)) by lia. lia. }
  apply round_le; [ exact Hb | lia | | lia ].
  (* digits + exponent is the same before and after the alignment *)
  pose proof (digits_le mz (ez' + 1074) M (ez + 1074) ltac:(lia) ltac:(lia) ltac:(lia)).
  pose proof (digits_le M (ez + 1074) mz (ez' + 1074) ltac:(lia) ltac:(lia) ltac:(lia)).
  rewrite fexp_eq. lia.
Qed.

Lemma binary_round_sign (s : bool) (M : positive) (ez : Z) :
  has_sign s (binary_round prec emax s M ez).
Proof.
  unfold binary_round.
  destruct (shl_align M ez (fexp prec emax (Zpos (digits2_pos M) + ez))) as [mz ez'].
  apply binary_round_aux_sign. lia.
Qed.

(** The two aligned mantissas of a sum or difference of doubles. *)
Lemma aligned (mx : positive) (ex : Z) (my : positive) (ey : Z) :
  bounded prec emax mx ex = true -> bounded prec emax my ey = true ->
  let ez := Z.min ex ey in
  -1074 <= ez /\
  Zpos (fst (shl_align mx ex ez)) * 2 ^ (ez + 1074) = Zpos mx * 2 ^ (ex + 1074) /\
  Zpos (fst (shl_align my ey ez)) * 2 ^ (ez + 1074) = Zpos my * 2 ^ (ey + 1074).
Proof.
  intros Bx By ez.
  destruct (bounded_spec _ _ Bx) as [Hx _]. destruct (bounded_spec _ _ By) as [Hy _].
  destruct (shl_align_spec mx ex ez) as [_ Hmx]. destruct (shl_align_spec my ey ez) as [_ Hmy].
  replace (Z.min ex ez) with ez in Hmx by lia.
  replace (Z.min ey ez) with ez in Hmy by lia.
  split; [ lia | ]. rewrite Hmx, Hmy. split.
  - replace (ex + 1074) with ((ex - ez) + (ez + 1074)) by lia.
    rewrite (Z.pow_add_r 2 (ex - ez) (ez + 1074)) by lia. lia.
  - replace (ey + 1074) with ((ey - ez) + (ez + 1074)) by lia.
    rewrite (Z.pow_add_r 2 (ey - ez) (ez + 1074)) by lia. lia.
Qed.

(** Taking a positive double from a double that is not smaller leaves a
    double that is [>= 0] and not above the first. *)
Lemma SFsub_pos_le (x y : spec_float) :
  valid_binary x = true -> valid_binary y = true ->
  positive_float y -> SFleb y x = true ->
  SFsub prec emax x y <> S754_nan ->
  nonneg (SFsub prec emax x y) /\ SFleb (SFsub prec emax x y) x = true.
Proof.
  intros Vx Vy Py L N.
  destruct y as [sy | [ | ] | | [ | ] my ey]; try contradiction;
    destruct x as [sx | [ | ] | | [ | ] mx ex]; try discriminate;
    try (exfalso; apply N; reflexivity); try (split; reflexivity).
  simpl in Vx, Vy.
  pose proof (SFleb_value my ey mx ex Vy Vx L) as Hval.
  destruct (aligned mx ex my ey Vx Vy) as (Hez & Ax & Ay).
  cbv zeta in Hez, Ax, Ay. clear N. unfold SFsub, cond_Zopp.
  remember (Z.min ex ey) as ez eqn:Dez.
  remember (fst (shl_align mx ex ez)) as mx' eqn:Dmx.
  remember (fst (shl_align my ey ez)) as my' eqn:Dmy.
  assert (P : 0 < 2 ^ (ez + 1074)) by (apply Z.pow_pos_nonneg; lia).
  remember (2 ^ (ez + 1074)) as Q eqn:DQ.
  assert (Hle : Zpos my' <= Zpos mx') by nia.
  destruct (Zpos mx' - Zpos my') as [ | M | M ] eqn:EM; try lia.
  - simpl. split; reflexivity.
  - unfold binary_normalize.
    destruct (binary_round_le false mx ex M ez Vx Hez) as [Hm Hs].
    { rewrite <- DQ. nia. }
    destruct (mag_le_SFleb_pos _ _ _ Hm Hs) as [H1 H2]. split; assumption.
Qed.

(** Adding a positive double to any double does not go below it. *)
Lemma SFadd_pos_ge (x y : spec_float) :
  valid_binary x = true -> valid_binary y = true ->
  positive_float y ->
  SFadd prec emax x y <> S754_nan ->
  SFleb x (SFadd prec emax x y) = true.
Proof.
  intros Vx Vy Py N.
  destruct x as [sx | [ | ] | | [ | ] mx ex];
    try (apply SFadd_nonneg_ge; auto using positive_nonneg; exact I);
    try (exfalso; apply N; reflexivity);
    destruct y as [sy | [ | ] | | [ | ] my ey]; try contradiction;
    try (exfalso; apply N; reflexivity); try reflexivity.
  simpl in Vx, Vy.
  destruct (aligned mx ex my ey Vx Vy) as (Hez & Ax & Ay).
  cbv zeta in Hez, Ax, Ay. clear N. unfold SFadd, cond_Zopp.
  remember (Z.min ex ey) as ez eqn:Dez.
  remember (fst (shl_align mx ex ez)) as mx' eqn:Dmx.
  remember (fst (shl_align my ey ez)) as my' eqn:Dmy.
  assert (P : 0 < 2 ^ (ez + 1074)) by (apply Z.pow_pos_nonneg; lia).
  remember (2 ^ (ez + 1074)) as Q eqn:DQ.
  destruct (- Zpos mx' + Zpos my') as [ | M | M ] eqn:EM.
  - reflexivity.
  - unfold binary_normalize. pose proof (binary_round_sign false M ez) as Hs.
    destruct (binary_round prec emax false M ez) as [s | s | | s m e];
      simpl in Hs; try contradiction; subst; reflexivity.
  - unfold binary_normalize.
    destruct (binary_round_le true mx ex M ez Vx Hez) as [Hm Hs].
    { rewrite <- DQ. nia. }
    apply mag_le_SFleb_neg; assumption.
Qed.

(** Addition of doubles is commutative. *)
Lemma SFadd_comm (x y : spec_float) : SFadd prec emax x y = SFadd prec emax y x.
Proof.
  destruct x as [sx | sx | | sx mx ex], y as [sy | sy | | sy my ey];
    try reflexivity; try (destruct sx, sy; reflexivity).
  unfold SFadd. rewrite (Z.min_comm ey ex). rewrite Z.add_comm. reflexivity.
Qed.

(** Sums and differences of finite doubles are not NaN. *)
Lemma binary_normalize_not_nan (m e : Z) (szero : bool) :
  binary_normalize prec emax m e szero <> S754_nan.
Proof.
  destruct m as [ | p | p ]; simpl; try discriminate.
  - pose proof (binary_round_sign false p e) as H. intros E. rewrite E in H. exact H.
  - pose proof (binary_round_sign true p e) as H. intros E. rewrite E in H. exact H.
Qed.

(** [x < 0] is false, read on the specification. *)
Lemma not_negative_spec (x : double) :
  (x <? 0)%float = false <-> not_negative (Prim2SF x).
Proof.
  rewrite FloatAxioms.ltb_spec. unfold SFltb.
  change (Prim2SF 0) with (S754_zero false).
  destruct (Prim2SF x) as [s | [ | ] | | [ | ] m e]; simpl; split; intros H;
    try reflexivity; try discriminate; try contradiction; auto.
Qed.

Lemma not_negative_cases (x : spec_float) :
  not_negative x <-> x = S754_nan \/ nonneg x.
Proof.
  destruct x as [s | [ | ] | | [ | ] m e]; simpl; split; intros H; auto;
    try contradiction; destruct H as [H | H]; try discriminate; auto.
Qed.

Lemma SFadd_not_negative (x y : spec_float) :
  valid_binary x = true -> valid_binary y = true ->
  not_negative x -> not_negative y -> not_negative (SFadd prec emax x y).
Proof.
  intros Vx Vy Hx Hy.
  apply not_negative_cases in Hx. apply not_negative_cases in Hy.
  destruct Hx as [-> | Hx]; [ exact I | ].
  destruct Hy as [-> | Hy]; [ destruct x; exact I | ].
  apply not_negative_cases. right. apply SFadd_nonneg_ge; assumption.
Qed.

Lemma SFmul_not_negative (x y : spec_float) :
  not_negative x -> not_negative y -> not_negative (SFmul prec emax x y).
Proof.
  intros Hx Hy.
  apply not_negative_cases in Hx. apply not_negative_cases in Hy.
  destruct Hx as [-> | Hx]; [ exact I | ].
  destruct Hy as [-> | Hy]; [ destruct x; exact I | ].
  apply not_negative_cases.
  destruct (SFmul prec emax x y) eqn:E; auto; right; rewrite <- E;
    apply SFmul_nonneg; auto; rewrite E; discriminate.
Qed.

Lemma SFdiv_not_negative (x : spec_float) (m : positive) (e : Z) :
  not_negative x -> not_negative (SFdiv prec emax x (S754_finite false m e)).
Proof.
  intros Hx. apply not_negative_cases in Hx.
  destruct Hx as [-> | Hx]; [ exact I | ].
  apply not_negative_cases. right. apply SFdiv_nonneg. exact Hx.
Qed.

(** *** On doubles *)

Lemma le_spec (x y : double) : le x y = SFleb (Prim2SF x) (Prim2SF y).
Proof. unfold le. apply FloatAxioms.leb_spec. Qed.

(** [b - amount] with [0 < amount <= b], when it is not NaN, lies between 0
    and [b]. *)
Lemma sub_bounds (b amount : double) :
  gt amount 0 = true -> le amount b = true ->
  isnan (b - amount)%float = false ->
  le (b - amount)%float b = true /\ ge (b - amount)%float 0 = true.
Proof.
  intros G L N. rewrite gt_zero_spec in G. rewrite le_spec in L.
  rewrite isnan_false, sub_spec in N.
  destruct (SFsub_pos_le (Prim2SF b) (Prim2SF amount)
              (Prim2SF_valid _) (Prim2SF_valid _) G L N) as [H1 H2].
  split.
  - rewrite le_spec, sub_spec. exact H2.
  - rewrite ge_zero_spec, sub_spec. exact H1.
Qed.

(** [b + amount] with [amount > 0], when it is not NaN, is not below [b]. *)
Lemma add_ge (b amount : double) :
  gt amount 0 = true -> isnan (b + amount)%float = false ->
  le b (b + amount)%float = true.
Proof.
  intros G N. rewrite gt_zero_spec in G. rewrite isnan_false, add_spec in N.
  rewrite le_spec, add_spec.
  apply SFadd_pos_ge; auto using Prim2SF_valid.
Qed.

(** [b + amount] with [amount > 0] is NaN only for a NaN [b], or for minus
    infinity plus infinity. *)
Lemma add_nan (b amount : double) :
  gt amount 0 = true ->
  isnan (b + amount)%float
    = (isnan b || (b =? neg_infinity)%float && (amount =? infinity)%float).
Proof.
  intros G. rewrite gt_zero_spec in G.
  destruct (isnan (b + amount)%float) eqn:N.
  - apply isnan_spec in N. rewrite add_spec in N.
    unfold isnan. rewrite !FloatAxioms.eqb_spec. unfold SFeqb.
    change (Prim2SF neg_infinity) with (S754_infinity true).
    change (Prim2SF infinity) with (S754_infinity false).
    destruct (Prim2SF b) as [sb | [ | ] | | [ | ] mb eb];
      destruct (Prim2SF amount) as [sa | [ | ] | | [ | ] ma ea];
      try contradiction; try discriminate; try reflexivity;
      exfalso; revert N; apply binary_normalize_not_nan.
  - apply isnan_false in N. rewrite add_spec in N.
    unfold isnan. rewrite !FloatAxioms.eqb_spec. unfold SFeqb.
    change (Prim2SF neg_infinity) with (S754_infinity true).
    change (Prim2SF infinity) with (S754_infinity false).
    destruct (Prim2SF b) as [sb | [ | ] | | [ | ] mb eb] eqn:EB;
      destruct (Prim2SF amount) as [sa | [ | ] | | [ | ] ma ea];
      try contradiction; try reflexivity;
      try (exfalso; apply N; reflexivity);
      simpl; rewrite ?Z.compare_refl; simpl;
      rewrite ?Pos.compare_cont_refl; reflexivity.
Qed.

(** [b - amount] with [amount > 0] and not [amount > b] is NaN only for a NaN
    [b], or for infinity minus infinity. *)
Lemma sub_nan (b amount : double) :
  gt amount 0 = true -> gt amount b = false ->
  isnan (b - amount)%float
    = (isnan b || (b =? infinity)%float && (amount =? infinity)%float).
Proof.
  intros G L. rewrite gt_zero_spec in G.
  unfold gt in L. rewrite FloatAxioms.ltb_spec in L. unfold SFltb in L.
  unfold isnan. rewrite !FloatAxioms.eqb_spec, sub_spec. unfold SFeqb.
  change (Prim2SF infinity) with (S754_infinity false).
  destruct (Prim2SF b) as [sb | [ | ] | | [ | ] mb eb] eqn:EB;
    destruct (Prim2SF amount) as [sa | [ | ] | | [ | ] ma ea] eqn:EA;
    try contradiction; try discriminate; try reflexivity.
  unfold SF64sub, SFsub.
  match goal with
  | |- context [binary_normalize prec emax ?m ?e ?z] =>
      pose proof (binary_normalize_not_nan m e z) as H;
      destruct (binary_normalize prec emax m e z) eqn:E
  end; try contradiction; try (exfalso; apply H; reflexivity);
    rewrite !SFcompare_refl by discriminate; reflexivity.
Qed.

(** A sum of a double that is [>= 0] and a positive one is [>= 0]. *)
Lemma add_nonneg (b amount : double) :
  ge b 0 = true -> gt amount 0 = true -> ge (b + amount)%float 0 = true.
Proof.
  intros B G. rewrite ge_zero_spec in B. rewrite gt_zero_spec in G.
  rewrite ge_zero_spec, add_spec.
  apply SFadd_nonneg_ge; auto using Prim2SF_valid, positive_nonneg.
Qed.

(** The three updates of a balance keep it from being negative. *)
Lemma add_not_negative (b q : double) :
  (b <? 0)%float = false -> (q <? 0)%float = false -> (b + q <? 0)%float = false.
Proof.
  rewrite !not_negative_spec, add_spec.
  apply SFadd_not_negative; apply Prim2SF_valid.
Qed.

Lemma sub_not_negative (b amount : double) :
  (b <? 0)%float = false -> gt amount 0 = true -> gt amount b = false ->
  (b - amount <? 0)%float = false.
Proof.
  intros B G L.
  destruct (isnan (b - amount)%float) eqn:N.
  - apply isnan_spec in N. apply not_negative_spec. rewrite N. exact I.
  - pose proof (sub_nan b amount G L) as E. rewrite N in E.
    symmetry in E. apply orb_false_iff in E. destruct E as [Nb _].
    destruct (gt_true_not_nan _ _ G) as [Na _].
    pose proof (not_gt_le amount b Na Nb L) as Le.
    destruct (sub_bounds b amount G Le N) as [_ H].
    apply (le_not_gt 0 (b - amount)%float). exact H.
Qed.

Lemma interest_not_negative (b r : double) :
  (b <? 0)%float = false -> (r <? 0)%float = false ->
  (b + b * r / 100 <? 0)%float = false.
Proof.
  intros B R. apply add_not_negative; [ exact B | ].
  rewrite not_negative_spec in *. rewrite div_spec, mul_spec.
  change (Prim2SF 100) with (S754_finite false 7036874417766400 (-46)).
  apply SFdiv_not_negative. apply SFmul_not_negative; assumption.
Qed.

(** A finite double minus itself is plus zero. *)
Lemma sub_self (b : double) : isfinite b = true -> (b - b)%float = 0%float.
Proof.
  unfold isfinite. intros F. apply Prim2SF_inj. rewrite sub_spec.
  change (Prim2SF 0) with (S754_zero false).
  destruct (Prim2SF b) as [[ | ] | s | | s m e]; try discriminate; try reflexivity.
  unfold SF64sub, SFsub. rewrite Z.min_id.
  rewrite Z.sub_diag. reflexivity.
Qed.

Lemma gt_irrefl (b : double) : gt b b = false.
Proof.
  unfold gt. rewrite FloatAxioms.ltb_spec. unfold SFltb.
  destruct (Prim2SF b) as [s | s | | s m e] eqn:E; try reflexivity;
    rewrite SFcompare_refl by discriminate; reflexivity.
Qed.

End OrderFacts.

Import OrderFacts.

(** ** isValidAmount and deposit *)

(** X1. [deposit(amount)] returns [true] exactly when [amount > 0]; the
    balance then becomes the double [balance + amount] and nothing else
    changes. Otherwise it returns [false], prints the invalid-amount line and
    leaves the object as it was. *)
Theorem deposit_spec (amount : double) (a : BankAccount) :
  let r := deposit amount a in
  (returned r = true <-> gt amount 0 = true) /\
  (returned r = true ->
     after r = set_balance a (balance a + amount)%float /\
     signalled (printed r) = None) /\
  (returned r = false ->
     after r = a /\ signalled (printed r) = Some InvalidAmount).
Proof.
  intros r. subst r.
  destruct (deposit_cases amount a) as [(G & R & A & S) | (G & R & A & S)];
    rewrite R, A, S, G; repeat split; auto; discriminate.
Qed.

(** X2. The amount test shared by [deposit], [withdraw] and [transfer]
    refuses exactly the amounts that are [<= 0] or NaN. Plus infinity is a
    valid amount; NaN and the two zeros are not. *)
Theorem isValidAmount_spec (amount : double) :
  (isValidAmount amount = false <-> (le amount 0 = true \/ isnan amount = true)) /\
  (isValidAmount amount = true <-> positive_float (Prim2SF amount)) /\
  isValidAmount infinity = true /\
  isValidAmount nan = false /\
  isValidAmount 0 = false /\
  isValidAmount neg_zero = false.
Proof.
  split; [ apply not_positive | ].
  split; [ apply gt_zero_spec | ].
  repeat split; reflexivity.
Qed.

(** X3. A successful deposit does not lower the balance. The new balance is
    NaN only if the old one was, or when infinity is deposited on a balance
    of minus infinity; otherwise it is [>=] the old balance, and [>= 0] when
    the old balance was. *)
Theorem deposit_never_decreases (amount : double) (a : BankAccount) :
  returned (deposit amount a) = true ->
  let b' := balance (after (deposit amount a)) in
  isnan b' = (isnan (balance a)
              || (balance a =? neg_infinity)%float && (amount =? infinity)%float) /\
  (isnan b' = false -> le (balance a) b' = true) /\
  (ge (balance a) 0 = true -> ge b' 0 = true).
Proof.
  intros R b'. subst b'.
  destruct (deposit_cases amount a) as [(_ & R' & _) | (G & _ & A & _)];
    [ congruence | ].
  rewrite A. simpl. split; [ apply add_nan; exact G | ].
  split; [ apply add_ge; exact G | ].
  intros B. apply add_nonneg; assumption.
Qed.

Lemma deposit_never_decreases_witness :
  returned (deposit 2000 account1) = true /\
  isnan (balance (after (deposit 2000 account1))) = false /\
  le (balance account1) (balance (after (deposit 2000 account1))) = true.
Proof.
  assert (R : returned (deposit 2000 account1) = true) by reflexivity.
  destruct (deposit_never_decreases 2000 account1 R) as (_ & H & _).
  split; [ exact R | ]. split; [ reflexivity | ]. apply H. reflexivity.
Defined.

(** ** withdraw *)

(** X4. A successful withdrawal never overdraws. The new balance is NaN only
    if the old one was, or when infinity is withdrawn from an infinite
    balance; otherwise it is [>= 0] and [<=] the old balance. *)
Theorem withdraw_never_overdraws (amount : double) (a : BankAccount) :
  returned (withdraw amount a) = true ->
  let b' := balance (after (withdraw amount a)) in
  isnan b' = (isnan (balance a)
              || (balance a =? infinity)%float && (amount =? infinity)%float) /\
  (isnan b' = false -> ge b' 0 = true /\ le b' (balance a) = true).
Proof.
  intros R b'. subst b'.
  destruct (withdraw_cases amount a)
    as [(_ & R' & _) | [(_ & _ & R' & _) | (G & L & _ & A & _)]];
    try congruence.
  rewrite A. simpl. pose proof (sub_nan (balance a) amount G L) as E.
  split; [ exact E | ]. intros N. rewrite N in E.
  symmetry in E. apply orb_false_iff in E. destruct E as [Nb _].
  destruct (gt_true_not_nan _ _ G) as [Na _].
  pose proof (not_gt_le amount (balance a) Na Nb L) as Le.
  destruct (sub_bounds (balance a) amount G Le N) as [H1 H2]. auto.
Qed.

Lemma withdraw_never_overdraws_witness :
  returned (withdraw 3000 account1) = true /\
  ge (balance (after (withdraw 3000 account1))) 0 = true /\
  le (balance (after (withdraw 3000 account1))) (balance account1) = true.
Proof.
  assert (R : returned (withdraw 3000 account1) = true) by reflexivity.
  destruct (withdraw_never_overdraws 3000 account1 R) as (_ & H).
  split; [ exact R | ]. apply H. reflexivity.
Defined.

(** X5. The whole balance can be withdrawn: on a finite positive balance,
    [withdraw(balance)] succeeds (the test is [amount > balance]) and leaves
    exactly zero. *)
Theorem withdraw_whole_balance (a : BankAccount) :
  isfinite (balance a) = true -> gt (balance a) 0 = true ->
  returned (withdraw (balance a) a) = true /\
  balance (after (withdraw (balance a) a)) = 0%float.
Proof.
  intros F G.
  destruct (withdraw_cases (balance a) a)
    as [(G' & _) | [(_ & L & _) | (_ & _ & R & A & _)]].
  - congruence.
  - rewrite gt_irrefl in L. discriminate.
  - split; [ exact R | ]. rewrite A. simpl. apply sub_self. exact F.
Qed.

Lemma withdraw_whole_balance_witness :
  isfinite (balance account1) = true /\ gt (balance account1) 0 = true /\
  returned (withdraw (balance account1) account1) = true /\
  balance (after (withdraw (balance account1) account1)) = 0%float.
Proof.
  split; [ reflexivity | ]. split; [ reflexivity | ].
  exact (withdraw_whole_balance account1 eq_refl eq_refl).
Defined.

(** X6. What was deposited can be withdrawn again: after a successful
    deposit of [amount] on a balance that is [>= 0], [withdraw(amount)]
    succeeds. *)
Theorem deposit_then_withdraw (amount : double) (a : BankAccount) :
  ge (balance a) 0 = true ->
  returned (deposit amount a) = true ->
  returned (withdraw amount (after (deposit amount a))) = true.
Proof.
  intros B R.
  destruct (deposit_cases amount a) as [(_ & R' & _) | (G & _ & A & _)];
    [ congruence | ].
  destruct (withdraw_cases amount (after (deposit amount a)))
    as [(G' & _) | [(_ & L & _) | (_ & _ & R' & _)]]; try congruence.
  exfalso. rewrite A in L. simpl in L.
  assert (Le : le amount (balance a + amount)%float = true).
  { rewrite le_spec, add_spec. unfold SF64add. rewrite SFadd_comm.
    apply RoundingFacts.SFadd_nonneg_ge; try apply Prim2SF_valid.
    - apply positive_nonneg. apply gt_zero_spec. exact G.
    - apply RoundingFacts.ge_zero_spec. exact B. }
  apply le_not_gt in Le. congruence.
Qed.

Lemma deposit_then_withdraw_witness :
  ge (balance account1) 0 = true /\
  returned (deposit 2000 account1) = true /\
  returned (withdraw 2000 (after (deposit 2000 account1))) = true.
Proof.
  split; [ reflexivity | ]. split; [ reflexivity | ].
  exact (deposit_then_withdraw 2000 account1 eq_refl eq_refl).
Defined.

(** ** transfer *)

(** X7. [transfer] is [withdraw] on the source followed, when the
    withdrawal succeeds, by [deposit] on the destination: same returned
    value and same store, for every pair of references, the two naming one
    object included. *)
Theorem transfer_is_withdraw_then_deposit (this toAccount : ref)
    (amount : double) (σ : store) :
  option_map (fun r => (returned r, after r)) (transfer this toAccount amount σ)
  = withdraw_then_deposit this toAccount amount σ.
Proof.
  unfold withdraw_then_deposit.
  destruct (σ !! this) as [a|] eqn:Ha.
  2:{ unfold transfer, call. rewrite Ha. destruct (σ !! toAccount); reflexivity. }
  destruct (σ !! toAccount) as [b|] eqn:Hb.
  2:{ unfold transfer. rewrite Ha, Hb. reflexivity. }
  rewrite (call_Some (withdraw amount) this σ a Ha).
  destruct (transfer_cases this toAccount amount σ a b Ha Hb)
    as [(G & o & E & _) | [(G & L & o & E & _) | (G & L & o & E & _)]];
    rewrite E; simpl;
    destruct (withdraw_cases amount a)
      as [(G' & R & A & _) | [(G' & L' & R & A & _) | (G' & L' & R & A & _)]];
    try congruence; rewrite R, A.
  - rewrite insert_id by exact Ha. reflexivity.
  - rewrite insert_id by exact Ha. reflexivity.
  - unfold transferred.
    set (a1 := set_balance a (balance a - amount)%float).
    destruct (decide (this = toAccount)) as [e | n].
    + subst toAccount.
      rewrite (call_Some (deposit amount) this _ a1) by apply lookup_insert_eq.
      destruct (deposit_cases amount a1) as [(G2 & _) | (_ & R2 & A2 & _)];
        [ congruence | ].
      rewrite R2, A2. reflexivity.
    + rewrite (call_Some (deposit amount) toAccount _ b)
        by (rewrite lookup_insert_ne by exact n; exact Hb).
      destruct (deposit_cases amount b) as [(G2 & _) | (_ & R2 & A2 & _)];
        [ congruence | ].
      rewrite R2, A2. reflexivity.
Qed.

(** X8. A successful transfer between two distinct accounts never overdraws
    the source and never lowers the destination: unless it is NaN, the new
    source balance is [>= 0] and [<=] the old one, and unless it is NaN, the
    new destination balance is [>=] the old one. *)
Theorem transfer_never_overdraws (σ σ' : store) (this toAccount : ref)
    (a b : BankAccount) (amount : double) (out : console) :
  σ !! this = Some a -> σ !! toAccount = Some b -> this <> toAccount ->
  transfer this toAccount amount σ = Some (true, σ', out) ->
  exists a' b',
    σ' !! this = Some a' /\ σ' !! toAccount = Some b' /\
    (isnan (balance a') = false ->
       ge (balance a') 0 = true /\ le (balance a') (balance a) = true) /\
    (isnan (balance b') = false -> le (balance b) (balance b') = true).
Proof.
  intros Ha Hb Hne T.
  destruct (transfer_cases this toAccount amount σ a b Ha Hb)
    as [(G & o & E & _) | [(G & L & o & E & _) | (G & L & o & E & _)]];
    rewrite E in T; inversion T; subst; clear T.
  unfold transferred. destruct (decide (this = toAccount)); [ contradiction | ].
  exists (set_balance a (balance a - amount)%float),
         (set_balance b (balance b + amount)%float).
  split; [ rewrite lookup_insert_ne by congruence; apply lookup_insert_eq | ].
  split; [ apply lookup_insert_eq | ]. simpl. split.
  - intros N. pose proof (sub_nan (balance a) amount G L) as EN. rewrite N in EN.
    symmetry in EN. apply orb_false_iff in EN. destruct EN as [Nb _].
    destruct (gt_true_not_nan _ _ G) as [Na _].
    pose proof (not_gt_le amount (balance a) Na Nb L) as Le.
    destruct (sub_bounds (balance a) amount G Le N) as [H1 H2]. auto.
  - apply add_ge. exact G.
Qed.

Lemma transfer_never_overdraws_witness :
  exists σ' out,
    main_store !! 1 = Some account1 /\ main_store !! 2 = Some account2 /\
    1 <> 2 /\
    transfer 1 2 500 main_store = Some (true, σ', out) /\
    exists a' b',
      σ' !! 1 = Some a' /\ σ' !! 2 = Some b' /\
      (isnan (balance a') = false ->
         ge (balance a') 0 = true /\ le (balance a') (balance account1) = true) /\
      (isnan (balance b') = false -> le (balance account2) (balance b') = true).
Proof.
  assert (T : { p : store * console |
                transfer 1 2 500 main_store = Some (true, fst p, snd p) }).
  { eexists (_, _). vm_compute. reflexivity. }
  destruct T as [[σ' out] T]. simpl in T.
  assert (H1 : main_store !! 1 = Some account1) by reflexivity.
  assert (H2 : main_store !! 2 = Some account2) by reflexivity.
  assert (Hne : 1 <> 2) by discriminate.
  exists σ', out. repeat (split; [ assumption | ]).
  exact (transfer_never_overdraws main_store σ' 1 2 account1 account2 500 out
           H1 H2 Hne T).
Defined.

(** ** The balance is never negative *)

Lemma deposit_in_credit (amount : double) (a : BankAccount) :
  in_credit a -> in_credit (after (deposit amount a)).
Proof.
  intros [B R].
  destruct (deposit_cases amount a) as [(_ & _ & -> & _) | (G & _ & -> & _)];
    [ split; assumption | ].
  split; [ simpl | exact R ].
  apply add_not_negative; [ exact B | ].
  apply (le_not_gt 0 amount). apply (not_gt_le 0 amount); try reflexivity.
  - apply gt_true_not_nan in G. tauto.
  - destruct (gt 0 amount) eqn:E; [ | reflexivity ].
    unfold gt in *. rewrite FloatAxioms.ltb_spec in *. unfold SFltb in *.
    rewrite (SFcompare_antisym (Prim2SF 0) (Prim2SF amount)) in E.
    destruct (SFcompare (Prim2SF 0) (Prim2SF amount)) as [[]|]; discriminate.
Qed.

Lemma withdraw_in_credit (amount : double) (a : BankAccount) :
  in_credit a -> in_credit (after (withdraw amount a)).
Proof.
  intros [B R].
  destruct (withdraw_cases amount a)
    as [(_ & _ & -> & _) | [(_ & _ & _ & -> & _) | (G & L & _ & -> & _)]];
    try (split; assumption).
  split; [ simpl | exact R ]. apply sub_not_negative; assumption.
Qed.

Lemma applyInterest_in_credit (a : BankAccount) :
  in_credit a -> in_credit (after (applyInterest a)).
Proof.
  intros [B R]. split; [ | exact R ].
  change (balance (after (applyInterest a)))
    with (balance a + balance a * interestRate a / 100)%float.
  apply interest_not_negative; assumption.
Qed.

Lemma setInterestRate_in_credit (rate : double) (a : BankAccount) :
  in_credit a -> in_credit (after (setInterestRate rate a)).
Proof.
  intros [B R].
  destruct (setInterestRate_cases rate a) as [(C & _ & -> & _) | (_ & _ & -> & _)];
    [ | split; assumption ].
  split; [ exact B | simpl ].
  apply andb_true_iff in C. destruct C as [C _].
  apply (le_not_gt 0 rate). exact C.
Qed.

Lemma setAccountHolder_in_credit (newHolder : string) (a : BankAccount) :
  in_credit a -> in_credit (after (setAccountHolder newHolder a)).
Proof.
  intros H.
  destruct (setAccountHolder_cases newHolder a) as [(_ & _ & -> & _) | (_ & _ & -> & _)];
    exact H.
Qed.

Lemma call_keeps {R : Type} (P : BankAccount -> Prop) (m : method R) (this : ref)
    (σ σ' : store) (v : R) (out : console) :
  (forall a, P a -> P (after (m a))) ->
  call m this σ = Some (v, σ', out) ->
  (forall r a, σ !! r = Some a -> P a) ->
  forall r a, σ' !! r = Some a -> P a.
Proof.
  intros Hm C Hσ r a Hr. apply call_inv in C.
  destruct C as (a0 & Ha0 & _ & -> & _).
  destruct (decide (this = r)) as [-> | Hne].
  - rewrite lookup_insert_eq in Hr. inversion Hr; subst. eauto.
  - rewrite lookup_insert_ne in Hr by exact Hne. eauto.
Qed.

Lemma transfer_keeps_credit (this toAccount : ref) (amount : double)
    (σ σ' : store) (v : bool) (out : console) :
  transfer this toAccount amount σ = Some (v, σ', out) ->
  (forall r a, σ !! r = Some a -> in_credit a) ->
  forall r a, σ' !! r = Some a -> in_credit a.
Proof.
  intros T Hσ. destruct (transfer_inv _ _ _ _ _ _ _ T) as (a & b & Ha & Hb).
  destruct (transfer_cases this toAccount amount σ a b Ha Hb)
    as [(G & o & E & _) | [(G & L & o & E & _) | (G & L & o & E & _)]];
    rewrite E in T; inversion T; subst; clear T; try exact Hσ.
  assert (Ca : in_credit (set_balance a (balance a - amount)%float)).
  { destruct (Hσ _ _ Ha) as [B R]. split; [ simpl | exact R ].
    apply sub_not_negative; assumption. }
  assert (Dep : forall c, in_credit c ->
                  in_credit (set_balance c (balance c + amount)%float)).
  { intros c Hc. pose proof (deposit_in_credit amount c Hc) as H.
    destruct (deposit_cases amount c) as [(G' & _) | (_ & _ & A & _)];
      [ congruence | ].
    rewrite A in H. exact H. }
  unfold transferred. intros r c Hr.
  destruct (decide (toAccount = r)) as [-> | N1].
  - rewrite lookup_insert_eq in Hr. inversion Hr; subst. apply Dep.
    destruct (decide (this = r)); [ exact Ca | eauto ].
  - rewrite lookup_insert_ne in Hr by exact N1.
    destruct (decide (this = r)) as [-> | N2].
    + rewrite lookup_insert_eq in Hr. inversion Hr; subst. exact Ca.
    + rewrite lookup_insert_ne in Hr by exact N2. eauto.
Qed.

Lemma invoke_keeps_credit (this : ref) (i : invocation) (σ σ' : store)
    (v : value) (out : console) :
  invoke this i σ = Some (v, σ', out) ->
  (forall r a, σ !! r = Some a -> in_credit a) ->
  forall r a, σ' !! r = Some a -> in_credit a.
Proof.
  destruct i; simpl; unfold with_value;
    match goal with
    | |- context [transfer ?t ?u ?x ?s] =>
        destruct (transfer t u x s) as [[[b s'] o]|] eqn:E; [ | discriminate ];
        intros H; inversion H; subst; eapply transfer_keeps_credit; eassumption
    | |- context [call ?m ?t ?s] =>
        destruct (call m t s) as [[[b s'] o]|] eqn:E; [ | discriminate ];
        intros H; inversion H; subst; eapply call_keeps; [ | eassumption ]
    end;
    auto using deposit_in_credit, withdraw_in_credit, setInterestRate_in_credit,
      setAccountHolder_in_credit, applyInterest_in_credit.
Qed.

Lemma run_keeps_credit (p : list (ref * invocation)) (σ σ' : store) :
  run p σ = Some σ' ->
  (forall r a, σ !! r = Some a -> in_credit a) ->
  forall r a, σ' !! r = Some a -> in_credit a.
Proof.
  revert σ. induction p as [ | [this i] p IH ]; intros σ; simpl.
  - intros H. inversion H; subst. auto.
  - destruct (invoke this i σ) as [[[v σ1] out]|] eqn:E; [ | discriminate ].
    intros H Hσ. eapply IH; [ exact H | ].
    eapply invoke_keeps_credit; eassumption.
Qed.

(** X9. No sequence of operations makes a balance negative. When the
    accounts of a program are constructed with a balance and a rate for which
    [x < 0] is false, every sequence of calls of the six operations, with any
    arguments, runs to its end and leaves [balance < 0] false for every
    account. *)
Theorem balance_never_negative (l : list ctor_args)
    (p : list (ref * invocation)) :
  Forall (fun x => (arg_initialBalance x <? 0)%float = false /\
                   (arg_rate x <? 0)%float = false) l ->
  well_referenced p (constructed l) ->
  exists σ', run p (constructed l) = Some σ' /\
    forall r a', σ' !! r = Some a' -> (balance a' <? 0)%float = false.
Proof.
  intros Hl Hp. destruct (run_defined p _ Hp) as [σ' E].
  exists σ'. split; [ exact E | ]. intros r a' Hr.
  apply (run_keeps_credit p _ σ' E) with (r := r); [ | exact Hr ].
  intros q a Hq. apply constructed_lookup in Hq.
  destruct Hq as (x & Hx & ->). rewrite Forall_forall in Hl. exact (Hl x Hx).
Qed.

Lemma balance_never_negative_witness :
  Forall (fun x => (arg_initialBalance x <? 0)%float = false /\
                   (arg_rate x <? 0)%float = false)
         [account1_args; account2_args] /\
  well_referenced main_calls (constructed [account1_args; account2_args]) /\
  exists σ', run main_calls (constructed [account1_args; account2_args]) = Some σ' /\
    forall r a', σ' !! r = Some a' -> (balance a' <? 0)%float = false.
Proof.
  assert (H : Forall (fun x => (arg_initialBalance x <? 0)%float = false /\
                               (arg_rate x <? 0)%float = false)
                [account1_args; account2_args]).
  { repeat constructor. }
  split; [ exact H | ]. split; [ exact main_well_referenced | ].
  exact (balance_never_negative _ _ H main_well_referenced).
Defined.

(** ** What is printed *)

(** Closes a goal [Forall fixed2 (render st out)] on an explicit [out]. *)
Ltac fixed2_done :=
  cbn [map render printed snd fmt_fixed fmt_precision fmt_left fmt_width fmt_fill];
  repeat constructor.

Lemma call_printed_fixed2 {R : Type} (m : method R) (this : ref) (σ σ' : store)
    (v : R) (out : console) (st : fmt) :
  (forall a, Forall fixed2 (render st (map SItem (printed (m a))))) ->
  call m this σ = Some (v, σ', out) ->
  Forall fixed2 (render st (map SItem out)).
Proof.
  intros Hm C. apply call_inv in C. destruct C as (a & _ & _ & _ & ->). apply Hm.
Qed.

Lemma transfer_printed_fixed2 (this toAccount : ref) (amount : double)
    (σ σ' : store) (v : bool) (out : console) (st : fmt) :
  transfer this toAccount amount σ = Some (v, σ', out) ->
  Forall fixed2 (render st (map SItem out)).
Proof.
  unfold transfer.
  destruct (σ !! this) as [a|]; [ | discriminate ].
  destruct (σ !! toAccount) as [b|]; [ | discriminate ].
  destruct (negb (isValidAmount amount)); [ intros [= <- <- <-]; fixed2_done | ].
  destruct (gt amount (balance a)); [ intros [= <- <- <-]; fixed2_done | ].
  cbv zeta.
  destruct (_ !! toAccount) as [b1|]; [ | discriminate ].
  destruct (_ !! this) as [a2|]; [ | discriminate ].
  intros [= <- <- <-]. fixed2_done.
Qed.

(** X10. Every double that an operation prints is printed in fixed notation
    with two decimals, whatever the format state of the stream before the
    call: each operation inserts [fixed] and [setprecision(2)] before its
    first double, and the two stay for the doubles that follow. *)
Theorem doubles_printed_fixed2 (this : ref) (i : invocation) (σ σ' : store)
    (v : value) (out : console) (st : fmt) :
  invoke this i σ = Some (v, σ', out) ->
  Forall fixed2 (render st (map SItem out)).
Proof.
  destruct i; cbn [invoke]; unfold with_value;
    match goal with
    | |- context [transfer ?t ?u ?x ?s] =>
        destruct (transfer t u x s) as [[[b s'] o]|] eqn:E; [ | discriminate ];
        intros [= <- <- <-]; eapply transfer_printed_fixed2; eassumption
    | |- context [call ?m ?t ?s] =>
        destruct (call m t s) as [[[b s'] o]|] eqn:E; [ | discriminate ];
        intros [= <- <- <-]; eapply call_printed_fixed2; [ | eassumption ]
    end; intros a.
  - unfold deposit. destruct (negb (isValidAmount amount)); fixed2_done.
  - unfold withdraw. destruct (negb (isValidAmount amount)); [ fixed2_done | ].
    destruct (gt amount (balance a)); fixed2_done.
  - unfold setInterestRate. destruct (ge rate 0 && le rate 50); fixed2_done.
  - unfold setAccountHolder. destruct (negb (string_empty newHolder)); fixed2_done.
  - unfold applyInterest. fixed2_done.
Qed.

Lemma doubles_printed_fixed2_witness :
  exists v σ' out,
    invoke 1 ApplyInterest main_store = Some (v, σ', out) /\
    Forall fixed2 (render (mkFmt false 6 false 0 " ") (map SItem out)).
Proof.
  assert (T : { p : value * store * console |
                invoke 1 ApplyInterest main_store = Some p }).
  { eexists. vm_compute. reflexivity. }
  destruct T as [[[v σ'] out] T]. exists v, σ', out.
  split; [ exact T | ].
  exact (doubles_printed_fixed2 1 ApplyInterest main_store σ' v out
           (mkFmt false 6 false 0 " ") T).
Defined.

Lemma append_empty (s : string) : s ++ "" = s.
Proof.
  induction s as [ | c s IH]; [ reflexivity | ].
  change (String c (s ++ "") = String c s). now rewrite IH.
Qed.

(** X11. [displayAccountInfo] prints, between two rules of 60 [=], the five
    attributes in the order number, holder, type, balance, rate. Each label
    is left-aligned and padded to 25 columns with the fill character of the
    stream (a space unless the caller changed it), so every value starts in
    column 26. The balance and the rate are both printed in fixed notation
    with two decimals: the rate is printed under the format set for the
    balance. This holds whatever the format state before the call (notation,
    precision, alignment, fill character), as long as no field width is
    pending. *)
Theorem displayAccountInfo_rendered (a : BankAccount) (st : fmt) :
  fmt_width st = 0 ->
  render st (displayAccountInfo a) =
    [PText nl; PText (string_n 60 "="%char); PNewline;
     PText "ACCOUNT INFORMATION"; PNewline;
     PText (string_n 60 "="%char); PNewline;
     PText ("Account Number:" ++ string_n 10 (fmt_fill st));
     PText (accountNumber a); PNewline;
     PText ("Account Holder:" ++ string_n 10 (fmt_fill st));
     PText (accountHolder a); PNewline;
     PText ("Account Type:" ++ string_n 12 (fmt_fill st));
     PText (accountType a); PNewline;
     PText ("Balance:" ++ string_n 17 (fmt_fill st)); PText "$";
     PDouble (balance a) true 2 0 true (fmt_fill st); PNewline;
     PText ("Interest Rate:" ++ string_n 11 (fmt_fill st));
     PDouble (interestRate a) true 2 0 true (fmt_fill st);
     PText "%"; PNewline;
     PText (string_n 60 "="%char); PText nl; PNewline].
Proof.
  destruct st as [f p l w c]. cbn [fmt_width fmt_fill]. intros ->.
  cbv [displayAccountInfo render pad fmt_left fmt_width fmt_fixed fmt_precision
       fmt_fill Nat.sub String.length string_n].
  rewrite !append_empty. destruct l; reflexivity.
Qed.

(** On a stream in its initial state, where the fill character is a space,
    and on one whose fill character was set to [*]. *)
Lemma displayAccountInfo_rendered_witness :
  fmt_width (mkFmt false 6 false 0 " ") = 0 /\
  fmt_width (mkFmt false 6 false 0 "*") = 0 /\
  nth_error (render (mkFmt false 6 false 0 " ") (displayAccountInfo account1)) 7
    = Some (PText "Account Number:          ") /\
  nth_error (render (mkFmt false 6 false 0 "*") (displayAccountInfo account1)) 7
    = Some (PText "Account Number:**********") /\
  nth_error (render (mkFmt false 6 false 0 " ") (displayAccountInfo account1)) 18
    = Some (PDouble 5000 true 2 0 true " ") /\
  nth_error (render (mkFmt false 6 false 0 " ") (displayAccountInfo account1)) 21
    = Some (PDouble 3.5 true 2 0 true " ").
Proof.
  split; [ reflexivity | ]. split; [ reflexivity | ].
  rewrite (displayAccountInfo_rendered account1 (mkFmt false 6 false 0 " ") eq_refl).
  rewrite (displayAccountInfo_rendered account1 (mkFmt false 6 false 0 "*") eq_refl).
  repeat split; reflexivity.
Defined.

(** ** applyInterest at rate 0 *)

(** X12. At a rate of zero (the constructor's default) [applyInterest] adds
    nothing to a finite balance: the interest it returns compares equal to 0
    and the balance compares equal to what it was. *)
Theorem applyInterest_zero_rate (a : BankAccount) :
  isfinite (balance a) = true ->
  (interestRate a =? 0)%float = true ->
  (returned (applyInterest a) =? 0)%float = true /\
  (balance (after (applyInterest a)) =? balance a)%float = true.
Proof.
  unfold isfinite. intros F Z.
  change (returned (applyInterest a))
    with (balance a * interestRate a / 100)%float.
  change (balance (after (applyInterest a)))
    with (balance a + balance a * interestRate a / 100)%float.
  rewrite !FloatAxioms.eqb_spec in *. rewrite add_spec, div_spec, mul_spec.
  change (Prim2SF 100) with (S754_finite false 7036874417766400 (-46)%Z).
  change (Prim2SF 0) with (S754_zero false) in *.
  unfold SF64add, SF64div, SF64mul.
  destruct (Prim2SF (balance a)) as [sb | sb | | sb mb eb]; try discriminate F;
    (destruct (Prim2SF (interestRate a)) as [sr | sr | | sr mr er];
     [ | destruct sr; discriminate Z | discriminate Z | destruct sr; discriminate Z ]).
  - destruct sb, sr; split; reflexivity.
  - split; [ destruct sb, sr; reflexivity | ].
    cbn [SFmul SFdiv SFadd]. unfold SFeqb.
    rewrite SFcompare_refl by discriminate. reflexivity.
Qed.

Lemma applyInterest_zero_rate_witness :
  isfinite (balance (fst (BankAccount_new3 "ACC003" "Ann Lee" 250))) = true /\
  (interestRate (fst (BankAccount_new3 "ACC003" "Ann Lee" 250)) =? 0)%float = true /\
  (returned (applyInterest (fst (BankAccount_new3 "ACC003" "Ann Lee" 250))) =? 0)%float
    = true /\
  (balance (after (applyInterest (fst (BankAccount_new3 "ACC003" "Ann Lee" 250))))
     =? 250)%float = true.
Proof.
  split; [ reflexivity | ]. split; [ reflexivity | ].
  exact (applyInterest_zero_rate (fst (BankAccount_new3 "ACC003" "Ann Lee" 250))
           eq_refl eq_refl).
Defined.
